(** * match: deep comparison of two Go values, and of two HTTP responses

    A shallow embedding of [match.go].  The Go functions [Matches],
    [matchesValues] and [MatchesHTTPResponse] are translated into Rocq
    functions over a model of Go values as package [reflect] presents them.
    A Go panic is an explicit outcome of the embedded functions. *)

From Stdlib Require Import ZArith String List Bool Lia SpecFloat DecimalString.
From stdpp Require Import base option list gmap.

Set Warnings "-register-all".
Local Open Scope string_scope.
Local Open Scope Z_scope.
Local Open Scope nat_scope.
Local Open Scope list_scope.

(** ** Outcomes: a returned value or a panic *)

(** The panics the embedded code can raise.  [ValueError m] is reflect's
    [*ValueError] for method [m] (a method called on the zero [Value] or on a
    [Value] of the wrong kind); [Uncomparable t] is the runtime error
    "comparing uncomparable type t"; [IndexOutOfRange] is reflect's index
    panic. *)
Inductive panic : Type :=
| ValueError (method : string)
| Uncomparable (t : string)
| IndexOutOfRange.

Inductive result (A : Type) : Type :=
| Ok (a : A)
| Panic (p : panic).
Arguments Ok {A} a.
Arguments Panic {A} p.

#[global] Instance result_ret : MRet result := fun A a => Ok a.
#[global] Instance result_bind : MBind result := fun A B k r =>
  match r with
  | Ok a => k a
  | Panic p => Panic p
  end.

(** ** Go types *)

(** [reflect.StructField], as far as the matcher looks at it: a field is
    exported exactly when its [PkgPath] is empty. *)
Record StructField : Type := mkField { Name : string; PkgPath : string }.

Inductive type : Type :=
| TBool
| TInt
| TFloat64
| TString
| TPtr (elem : type)
| TArray (len : nat) (elem : type)
| TSlice (elem : type)
| TStruct (name : string) (fields : list (StructField * type))
| TMap (key elem : type)
| TInterface
| TFunc (sig : string).

Definition field_eqb (f g : StructField) : bool :=
  String.eqb (Name f) (Name g) && String.eqb (PkgPath f) (PkgPath g).

(** Type identity, the [==] of two [reflect.Type]s. *)
Fixpoint type_eqb (s t : type) {struct s} : bool :=
  match s, t with
  | TBool, TBool | TInt, TInt | TFloat64, TFloat64 | TString, TString => true
  | TPtr a, TPtr b => type_eqb a b
  | TArray n a, TArray m b => Nat.eqb n m && type_eqb a b
  | TSlice a, TSlice b => type_eqb a b
  | TStruct n fs, TStruct m gs =>
      String.eqb n m &&
      (fix fields_eqb (fs gs : list (StructField * type)) {struct fs} : bool :=
         match fs, gs with
         | [], [] => true
         | (f, a) :: fs', (g, b) :: gs' =>
             field_eqb f g && type_eqb a b && fields_eqb fs' gs'
         | _, _ => false
         end) fs gs
  | TMap k a, TMap l b => type_eqb k l && type_eqb a b
  | TInterface, TInterface => true
  | TFunc a, TFunc b => String.eqb a b
  | _, _ => false
  end.

(** The comparable types of the Go specification: everything but slices,
    maps and functions, and the arrays and structs built from them. *)
Fixpoint comparable (t : type) : bool :=
  match t with
  | TBool | TInt | TFloat64 | TString | TPtr _ | TInterface => true
  | TArray _ a => comparable a
  | TStruct _ fs => forallb (fun f => comparable (snd f)) fs
  | TSlice _ | TMap _ _ | TFunc _ => false
  end.

(** The name of a type, as the runtime prints it in a panic message. *)
Fixpoint type_name (t : type) : string :=
  match t with
  | TBool => "bool"
  | TInt => "int"
  | TFloat64 => "float64"
  | TString => "string"
  | TPtr a => String.append "*" (type_name a)
  | TArray n a =>
      String.append "["
        (String.append (NilEmpty.string_of_uint (Nat.to_uint n))
           (String.append "]" (type_name a)))
  | TSlice a => String.append "[]" (type_name a)
  | TStruct n _ => n
  | TMap k a =>
      String.append "map["
        (String.append (type_name k) (String.append "]" (type_name a)))
  | TInterface => "interface {}"
  | TFunc s => s
  end.

(** ** Go values *)

(** Map keys: the key types the model covers are bool, int and string. *)
Inductive mapkey : Type :=
| KeyBool (b : bool)
| KeyInt (z : Z)
| KeyString (s : string).

Definition key_eqb (k l : mapkey) : bool :=
  match k, l with
  | KeyBool a, KeyBool b => Bool.eqb a b
  | KeyInt a, KeyInt b => Z.eqb a b
  | KeyString a, KeyString b => String.eqb a b
  | _, _ => false
  end.

Definition keyType (k : mapkey) : type :=
  match k with
  | KeyBool _ => TBool
  | KeyInt _ => TInt
  | KeyString _ => TString
  end.

(** A Go value together with what reflect knows about it.

    - a [float64] is an IEEE 754 binary64 datum ([spec_float]);
    - a pointer is nil or an address together with the value it points to
      (values are finite trees: no cyclic data);
    - arrays and slices list their elements; a nil slice and an empty slice
      are both the empty list ([Len] is 0 for both);
    - a struct lists its fields in declaration order;
    - a map lists its entries in the order in which [MapKeys] returns the
      keys, which Go leaves unspecified: every order is a possible value of
      the model; a nil map and an empty map are both the empty list;
    - [GIface d] is a value of static type [interface{}] (a slice element,
      a map element, a struct field), holding nothing ([None], the nil
      interface) or a dynamic value;
    - a function is nil or identified by its code address. *)
Inductive gval : Type :=
| GBool (b : bool)
| GInt (z : Z)
| GFloat64 (f : spec_float)
| GString (s : string)
| GPtr (elem : type) (target : option (nat * gval))
| GArray (elem : type) (items : list gval)
| GSlice (elem : type) (items : list gval)
| GStruct (name : string) (fields : list (StructField * gval))
| GMap (key elem : type) (entries : list (mapkey * gval))
| GIface (dyn : option gval)
| GFunc (sig : string) (code : option nat).

(** The values of Go's [interface{}] handed to [Matches]: nil or a dynamic
    value. *)
Definition iface : Type := option gval.

(** The dynamic type of a value. *)
Fixpoint typeOf (v : gval) : type :=
  match v with
  | GBool _ => TBool
  | GInt _ => TInt
  | GFloat64 _ => TFloat64
  | GString _ => TString
  | GPtr t _ => TPtr t
  | GArray t vs => TArray (length vs) t
  | GSlice t _ => TSlice t
  | GStruct n fs => TStruct n (map (fun p => (fst p, typeOf (snd p))) fs)
  | GMap k t _ => TMap k t
  | GIface _ => TInterface
  | GFunc s _ => TFunc s
  end.

(** ** Go's [==] on interface values *)

Definition same_address {A : Type} (p q : option (nat * A)) : bool :=
  match p, q with
  | None, None => true
  | Some (a, _), Some (b, _) => Nat.eqb a b
  | _, _ => false
  end.

(** [valEq u v] is [u == v] for two values of one identical type, as the
    runtime computes it when the operands are interface values: pointers are
    equal when they point to the same variable, arrays and structs are
    compared element by element in order, stopping at the first difference
    (the blank fields [_] of a struct are left out), and an interface-typed
    element is compared by [ifaceEq] below, inlined here: equal dynamic types
    that are not comparable make the comparison panic. *)
Fixpoint valEq (u v : gval) {struct u} : result bool :=
  match u, v with
  | GBool a, GBool b => Ok (Bool.eqb a b)
  | GInt a, GInt b => Ok (Z.eqb a b)
  | GFloat64 a, GFloat64 b => Ok (SFeqb a b)
  | GString a, GString b => Ok (String.eqb a b)
  | GPtr _ p, GPtr _ q => Ok (same_address p q)
  | GArray _ us, GArray _ vs =>
      (fix items (us vs : list gval) {struct us} : result bool :=
         match us, vs with
         | x :: us', y :: vs' =>
             b ← valEq x y; if b : bool then items us' vs' else Ok false
         | _, _ => Ok true
         end) us vs
  | GStruct _ fs, GStruct _ gs =>
      (fix fields (fs gs : list (StructField * gval)) {struct fs} : result bool :=
         match fs, gs with
         | (f, x) :: fs', (_, y) :: gs' =>
             if String.eqb (Name f) "_" then fields fs' gs' else
             b ← valEq x y; if b : bool then fields fs' gs' else Ok false
         | _, _ => Ok true
         end) fs gs
  | GIface None, GIface None => Ok true
  | GIface (Some x), GIface (Some y) =>
      if negb (type_eqb (typeOf x) (typeOf y)) then Ok false
      else if negb (comparable (typeOf x)) then Panic (Uncomparable (type_name (typeOf x)))
      else valEq x y
  | GIface _, GIface _ => Ok false
  | _, _ => Panic (Uncomparable (type_name (typeOf u)))
  end.

(** [x == y] for two interface values: both nil, or identical dynamic types
    and equal dynamic values; a panic when the identical dynamic types are
    not comparable. *)
Definition ifaceEq (x y : iface) : result bool :=
  match x, y with
  | None, None => Ok true
  | Some u, Some v =>
      if negb (type_eqb (typeOf u) (typeOf v)) then Ok false
      else if negb (comparable (typeOf u)) then Panic (Uncomparable (type_name (typeOf u)))
      else valEq u v
  | _, _ => Ok false
  end.

(** ** Package reflect *)

(** A [reflect.Value]: the zero Value, which represents no value at all, or
    a value with its type. *)
Inductive Value : Type :=
| Invalid
| Val (v : gval).

(** [reflect.ValueOf]: the zero Value for a nil interface. *)
Definition ValueOf (i : iface) : Value :=
  match i with
  | None => Invalid
  | Some v => Val v
  end.

(** [Value.Type]: panics on the zero Value. *)
Definition Type_ (v : Value) : result type :=
  match v with
  | Invalid => Panic (ValueError "reflect.Value.Type")
  | Val x => Ok (typeOf x)
  end.

(** [Value.IsNil] of a pointer, an interface or a function.  (The model
    does not tell a nil slice or map from an empty one; the matcher asks
    [IsNil] of pointers only.) *)
Definition IsNil (v : Value) : result bool :=
  match v with
  | Val (GPtr _ p) => Ok (bool_decide (p = None))
  | Val (GIface d) => Ok (bool_decide (d = None))
  | Val (GFunc _ c) => Ok (bool_decide (c = None))
  | _ => Panic (ValueError "reflect.Value.IsNil")
  end.

(** [Value.Elem] of a pointer or an interface; the zero Value for nil. *)
Definition Elem (v : Value) : result Value :=
  match v with
  | Val (GPtr _ (Some (_, x))) => Ok (Val x)
  | Val (GPtr _ None) => Ok Invalid
  | Val (GIface d) => Ok (ValueOf d)
  | _ => Panic (ValueError "reflect.Value.Elem")
  end.

(** [Value.Len] of an array, a slice or a map; the matcher asks it of
    arrays and slices. *)
Definition Len (v : Value) : result nat :=
  match v with
  | Val (GArray _ vs) | Val (GSlice _ vs) => Ok (length vs)
  | Val (GMap _ _ kvs) => Ok (length kvs)
  | _ => Panic (ValueError "reflect.Value.Len")
  end.

(** [Value.Index] into an array or a slice; out of range it panics. *)
Definition Index (v : Value) (i : nat) : result Value :=
  match v with
  | Val (GArray _ vs) | Val (GSlice _ vs) =>
      match vs !! i with
      | Some x => Ok (Val x)
      | None => Panic IndexOutOfRange
      end
  | _ => Panic (ValueError "reflect.Value.Index")
  end.

(** [Value.Field], the i-th field of a struct. *)
Definition Field (v : Value) (i : nat) : result Value :=
  match v with
  | Val (GStruct _ fs) =>
      match fs !! i with
      | Some (_, x) => Ok (Val x)
      | None => Panic IndexOutOfRange
      end
  | _ => Panic (ValueError "reflect.Value.Field")
  end.

Fixpoint lookup_key (k : mapkey) (kvs : list (mapkey * gval)) : option gval :=
  match kvs with
  | [] => None
  | (l, x) :: kvs' => if key_eqb k l then Some x else lookup_key k kvs'
  end.

(** [Value.MapIndex]: the value under the key, or the zero Value when the
    map has no such key (or is nil). *)
Definition MapIndex (v : Value) (k : mapkey) : result Value :=
  match v with
  | Val (GMap _ _ kvs) =>
      match lookup_key k kvs with
      | Some x => Ok (Val x)
      | None => Ok Invalid
      end
  | _ => Panic (ValueError "reflect.Value.MapIndex")
  end.

(** [Value.Interface]: the value as an [interface{}]; for a Value of kind
    Interface that is the interface value itself (its element). *)
Definition Interface (v : Value) : result iface :=
  match v with
  | Invalid => Panic (ValueError "reflect.Value.Interface")
  | Val (GIface d) => Ok d
  | Val x => Ok (Some x)
  end.

(** ** The matcher *)

(** The inner loop of the sequence case, [for j := 0; j < actual.Len(); j++]:
    [js] lists the indices still to visit, [m] is the recursive comparison
    against the current element of [expected].  The result is the index [j]
    at which the loop breaks with [found = true], or [None] when the loop
    runs to its end with [found] still false. *)
Definition scan (m : Value → result bool) (actual : Value)
    (used : gmap nat bool) : list nat → result (option nat) :=
  fix scan_from (js : list nat) : result (option nat) :=
    match js with
    | [] => Ok None
    | j :: js' =>
        if default false (used !! j) then scan_from js'
        else
          aj ← Index actual j;
          b ← m aj;
          if b : bool then Ok (Some j) else scan_from js'
    end.

(** The outer loop of the sequence case, [for i := 0; i < expected.Len();
    i++], over the elements of [expected] still to come; [used] is the map
    of the indices of [actual] consumed so far and [n] is [actual.Len()]. *)
Definition each_element (m : gval → Value → result bool) (actual : Value)
    (n : nat) : list gval → gmap nat bool → result bool :=
  fix each (es : list gval) (used : gmap nat bool) {struct es} : result bool :=
    match es with
    | [] => Ok true
    | ei :: es' =>
        found ← scan (m ei) actual used (seq 0 n);
        match found with
        | Some j => each es' (<[j := true]> used)
        | None => Ok false
        end
    end.

(** The loop of the struct case over the fields of [expected] from the
    [i]-th on: a field with a non-empty [PkgPath] is unexported and is
    skipped. *)
Definition each_field (m : gval → Value → result bool) (actual : Value)
    : list (StructField * gval) → nat → result bool :=
  fix each (fs : list (StructField * gval)) (i : nat) {struct fs} : result bool :=
    match fs with
    | [] => Ok true
    | (f, x) :: fs' =>
        if negb (String.eqb (PkgPath f) EmptyString) then each fs' (S i)
        else
          ai ← Field actual i;
          b ← m x ai;
          if negb b then Ok false else each fs' (S i)
    end.

(** The loop of the map case over [expected.MapKeys()]; [x] is
    [expected.MapIndex(key)]. *)
Definition each_key (m : gval → Value → result bool) (actual : Value)
    : list (mapkey * gval) → result bool :=
  fix each (kvs : list (mapkey * gval)) {struct kvs} : result bool :=
    match kvs with
    | [] => Ok true
    | (key, x) :: kvs' =>
        ak ← MapIndex actual key;
        b ← m x ak;
        if negb b then Ok false else each kvs'
    end.

(** [matchesValues] for a valid [expected].  The [switch] on
    [expected.Kind()] is the match on the constructor of [e]; the recursion
    follows [expected]. *)
Fixpoint matchesValid (e : gval) (actual : Value) {struct e} : result bool :=
  t ← Type_ actual;
  if negb (type_eqb (typeOf e) t) then Ok false
  else
    match e with
    | GPtr _ p =>
        an ← IsNil actual;
        match p with
        | None => Ok an
        | Some (_, x) =>
            if an : bool then Ok false
            else ae ← Elem actual; matchesValid x ae
        end
    | GArray _ es | GSlice _ es =>
        n ← Len actual;
        if negb (Nat.eqb (length es) n) then Ok false
        else each_element matchesValid actual n es ∅
    | GStruct _ fs => each_field matchesValid actual fs 0
    | GMap _ _ kvs => each_key matchesValid actual kvs
    | _ =>
        ie ← Interface (Val e);
        ia ← Interface actual;
        ifaceEq ie ia
    end.

(** [matchesValues] recursively requires deep equality (order-agnostic
    equality for slices). *)
Definition matchesValues (expected actual : Value) : result bool :=
  match expected with
  | Invalid => Panic (ValueError "reflect.Value.Type")
  | Val e => matchesValid e actual
  end.

(** [Matches] determines whether two arbitrary interfaces match. *)
Definition Matches (expected actual : iface) : result bool :=
  matchesValues (ValueOf expected) (ValueOf actual).

(** ** HTTP responses *)

(** [http.Header]: a [map[string][]string], its entries in the order of
    [MapKeys].  Both operands of a comparison have this one named type; the
    model keeps its underlying map type. *)
Definition HeaderMap : Type := list (string * list string).

(** A header as the value reflect sees when it is passed to [Matches]. *)
Definition header_val (h : HeaderMap) : gval :=
  GMap TString (TSlice TString)
    (map (fun kv => (KeyString (fst kv), GSlice TString (map GString (snd kv)))) h).

(** A response body, an [io.Reader] read once: the bytes it has yet to
    deliver, how the stream ends after them (nil for a clean end of file,
    otherwise the error the read fails with), and how many times it has
    been read to its end. *)
Record ReadCloser : Type := mkBody {
  remaining : string;
  ending : iface;
  reads : nat
}.

(** [ioutil.ReadAll]: the bytes up to the end of the stream and the error
    that ended it, if any; the stream is left drained. *)
Definition ReadAll (b : ReadCloser) : (string * iface) * ReadCloser :=
  ((remaining b, ending b),
   {| remaining := EmptyString; ending := ending b; reads := S (reads b) |}).

(** [http.Response], the fields the matcher reads.  [Trailer] is the
    trailer as it stands once the body has been read. *)
Record Response : Type := mkResponse {
  StatusCode : Z;
  Header : HeaderMap;
  Body : ReadCloser;
  Trailer : HeaderMap
}.

Section Responses.

(** [json.Unmarshal] into an [interface{}]: [None] when it returns an
    error, otherwise the decoded value, which is nil for the document
    [null]. *)
Variable Unmarshal : string → option iface.

(** The comparison of trailers and bodies, once both bodies are in
    memory. *)
Definition matchesRead (expected actual : Response)
    (expBody actBody : string) : result bool :=
  b ← Matches (Some (header_val (Trailer expected)))
              (Some (header_val (Trailer actual)));
  if negb b then Ok false
  else
    match Unmarshal expBody with
    | None => Ok (String.eqb expBody actBody)
    | Some exp =>
        match Unmarshal actBody with
        | None => Ok false
        | Some act => Matches exp act
        end
    end.

(** [MatchesHTTPResponse] determines whether two [http.Response]s match.
    The two responses are distinct, non-nil objects with distinct bodies;
    the result carries the state in which the call leaves the two bodies. *)
Definition MatchesHTTPResponse (expected actual : Response)
    : result bool * (ReadCloser * ReadCloser) :=
  let unread := (Body expected, Body actual) in
  if negb (Z.eqb (StatusCode expected) (StatusCode actual))
  then (Ok false, unread)
  else
    match Matches (Some (header_val (Header expected)))
                  (Some (header_val (Header actual))) with
    | Panic p => (Panic p, unread)
    | Ok false => (Ok false, unread)
    | Ok true =>
        let '((expBody, expErr), expRead) := ReadAll (Body expected) in
        let '((actBody, actErr), actRead) := ReadAll (Body actual) in
        (if negb (bool_decide (expErr = None)) || negb (bool_decide (actErr = None))
         then ifaceEq expErr actErr
         else matchesRead expected actual expBody actBody,
         (expRead, actRead))
    end.

End Responses.

(** ** The sequence rule as the specification words it *)

Section MultisetMatching.

(** The structural match of one element against another. *)
Variable m : gval → gval → result bool.

(** Search the elements of [actual] not yet consumed, in their original
    order, for the first one that matches [e]; on success that element is
    consumed and the others are left, in order. *)
Fixpoint consume_first (e : gval) (unconsumed : list gval)
    : result (option (list gval)) :=
  match unconsumed with
  | [] => Ok None
  | a :: rest =>
      b ← m e a;
      if b : bool then Ok (Some rest)
      else left ← consume_first e rest; Ok (option_map (cons a) left)
  end.

(** For each element of [expected], in order, consume the first unconsumed
    element of [actual] that matches; when none does the whole comparison is
    false. *)
Fixpoint multiset_match (expected unconsumed : list gval) : result bool :=
  match expected with
  | [] => Ok true
  | e :: es =>
      left ← consume_first e unconsumed;
      match left with
      | Some rest => multiset_match es rest
      | None => Ok false
      end
  end.

End MultisetMatching.

(** Equal length first, then unordered multiset matching by recursive
    calls. *)
Definition sequence_match (expected actual : list gval) : result bool :=
  if negb (Nat.eqb (length expected) (length actual)) then Ok false
  else multiset_match (fun e a => matchesValues (Val e) (Val a)) expected actual.

(** The elements of [actual] at the indices [js] that [used] does not mark
    as consumed. *)
Fixpoint unconsumed_at (items : list gval) (used : gmap nat bool)
    (js : list nat) : list gval :=
  match js with
  | [] => []
  | j :: js' =>
      if default false (used !! j) then unconsumed_at items used js'
      else
        match items !! j with
        | Some x => x :: unconsumed_at items used js'
        | None => unconsumed_at items used js'
        end
  end.

(** ** Exported and unexported fields *)

(** A field is exported when its [PkgPath] is empty. *)
Definition exported (f : StructField) : bool := String.eqb (PkgPath f) EmptyString.

(** No field of the list is exported. *)
Definition no_exported (fs : list (StructField * gval)) : Prop :=
  Forall (fun p => exported (fst p) = false) fs.

(** ** Values the code can receive *)

Definition is_iface (v : gval) : bool :=
  match v with
  | GIface _ => true
  | _ => false
  end.

(** The keys of a map are pairwise distinct. *)
Fixpoint distinct_keys (kvs : list (mapkey * gval)) : bool :=
  match kvs with
  | [] => true
  | (k, _) :: kvs' =>
      negb (existsb (fun kv => key_eqb k (fst kv)) kvs') && distinct_keys kvs'
  end.

(** A float64 is a binary64 datum: 53 bits of precision, exponents below
    1024. *)
Definition float64_of_Z (z : Z) : spec_float := binary_normalize 53 1024 z 0 false.

(** A value of the model that exists in Go: an int fits 64 bits, a float64
    is a binary64 datum, elements have the element type of their array,
    slice or map, a pointer points to a value of its element type, the keys
    of a map are distinct and of its key type, and the dynamic value of an
    interface is not itself an interface. *)
Fixpoint well_formed (v : gval) : bool :=
  match v with
  | GBool _ | GString _ | GFunc _ _ => true
  | GInt z => Z.leb (- 2 ^ 63) z && Z.ltb z (2 ^ 63)
  | GFloat64 f => valid_binary 53 1024 f
  | GPtr _ None => true
  | GPtr t (Some (_, x)) => type_eqb (typeOf x) t && well_formed x
  | GArray t vs | GSlice t vs =>
      forallb (fun x => type_eqb (typeOf x) t && well_formed x) vs
  | GStruct _ fs => forallb (fun p => well_formed (snd p)) fs
  | GMap k t kvs =>
      distinct_keys kvs &&
      forallb (fun kv => type_eqb (keyType (fst kv)) k
                         && type_eqb (typeOf (snd kv)) t
                         && well_formed (snd kv)) kvs
  | GIface None => true
  | GIface (Some x) => negb (is_iface x) && well_formed x
  end.

(** An argument of [Matches]: nil, or a well-formed dynamic value. *)
Definition well_formed_iface (i : iface) : bool :=
  match i with
  | None => true
  | Some v => negb (is_iface v) && well_formed v
  end.

(** ** Values that are equal to themselves *)

(** The values [v] for which Go's [v == v] is true: the type is comparable
    and no float64 in it is a NaN. *)
Fixpoint eq_reflexive (v : gval) : bool :=
  match v with
  | GBool _ | GInt _ | GString _ | GPtr _ _ => true
  | GFloat64 f => SFeqb f f
  | GArray _ vs => forallb eq_reflexive vs
  | GStruct _ fs => forallb (fun p => eq_reflexive (snd p)) fs
  | GIface None => true
  | GIface (Some x) => comparable (typeOf x) && eq_reflexive x
  | GSlice _ _ | GMap _ _ _ | GFunc _ _ => false
  end.

(** The values on which the matcher compares only leaves that are equal to
    themselves: no NaN and no function among the compared leaves, and in
    every position of interface type either nil or a value with [v == v]. *)
Fixpoint match_reflexive (v : gval) : bool :=
  match v with
  | GBool _ | GInt _ | GString _ => true
  | GFloat64 f => SFeqb f f
  | GFunc _ _ => false
  | GPtr _ None => true
  | GPtr _ (Some (_, x)) => match_reflexive x
  | GArray _ vs | GSlice _ vs => forallb match_reflexive vs
  | GStruct _ fs =>
      forallb (fun p => negb (exported (fst p)) || match_reflexive (snd p)) fs
  | GMap _ _ kvs =>
      distinct_keys kvs && forallb (fun kv => match_reflexive (snd kv)) kvs
  | GIface None => true
  | GIface (Some x) => comparable (typeOf x) && eq_reflexive x
  end.

(** ** Values that differ in unexported fields only *)

(** [same_visible v w]: [w] is [v] but for the values of unexported fields
    of structs, at any depth below pointers, elements of arrays, slices and
    maps, and exported fields.  What a position of interface type holds is
    the same value in both.  An unexported field holds on both sides a
    value of the field's type. *)
Inductive same_visible : gval → gval → Prop :=
| visible_same v : same_visible v v
| visible_ptr t a b x y :
    same_visible x y → same_visible (GPtr t (Some (a, x))) (GPtr t (Some (b, y)))
| visible_array t xs ys :
    Forall2 same_visible xs ys → same_visible (GArray t xs) (GArray t ys)
| visible_slice t xs ys :
    Forall2 same_visible xs ys → same_visible (GSlice t xs) (GSlice t ys)
| visible_struct n fs gs :
    Forall2 (fun p q => fst p = fst q ∧ typeOf (snd p) = typeOf (snd q)
                        ∧ (exported (fst p) = true → same_visible (snd p) (snd q)))
            fs gs →
    same_visible (GStruct n fs) (GStruct n gs)
| visible_map k t kvs kvs' :
    Forall2 (fun p q => fst p = fst q ∧ same_visible (snd p) (snd q)) kvs kvs' →
    same_visible (GMap k t kvs) (GMap k t kvs').

(** ** Structural copies *)

(** [copy_of v w]: [w] is a structural copy of [v].  The pointers of [v]
    may have been copied to other addresses and the entries of a map may
    come in another order; what a position of interface type holds is the
    same value in both. *)
Inductive copy_of : gval → gval → Prop :=
| copy_same v : copy_of v v
| copy_ptr t a b x y :
    copy_of x y → copy_of (GPtr t (Some (a, x))) (GPtr t (Some (b, y)))
| copy_array t xs ys :
    Forall2 copy_of xs ys → copy_of (GArray t xs) (GArray t ys)
| copy_slice t xs ys :
    Forall2 copy_of xs ys → copy_of (GSlice t xs) (GSlice t ys)
| copy_struct n fs gs :
    Forall2 (fun p q => fst p = fst q ∧ copy_of (snd p) (snd q)) fs gs →
    copy_of (GStruct n fs) (GStruct n gs)
| copy_map k t kvs kvs' :
    Forall (fun kv => ∃ y, lookup_key (fst kv) kvs' = Some y ∧ copy_of (snd kv) y) kvs →
    copy_of (GMap k t kvs) (GMap k t kvs').

(** ** Sample values *)

Definition ints (zs : list Z) : gval := GSlice TInt (map GInt zs).

(** The float64 not-a-number. *)
Definition NaN : gval := GFloat64 S754_nan.

(** A struct type [pkg.T] with an exported field [A] and an unexported
    field [b], and a struct type [pkg.U] with unexported fields only. *)
Definition field_A : StructField := {| Name := "A"; PkgPath := EmptyString |}.
Definition field_b : StructField := {| Name := "b"; PkgPath := "pkg" |}.
Definition T_val (A : Z) (b : string) : list (StructField * gval) :=
  [(field_A, GInt A); (field_b, GString b)].
Definition U_val (b : string) : list (StructField * gval) :=
  [(field_b, GString b)].

(** A struct type [pkg.W] with one exported field [F] of interface type,
    and a struct type [pkg.V] with one exported field [Inner] of type
    [pkg.T]. *)
Definition field_F : StructField := {| Name := "F"; PkgPath := EmptyString |}.
Definition W_val (x : gval) : list (StructField * gval) :=
  [(field_F, GIface (Some x))].
Definition field_Inner : StructField := {| Name := "Inner"; PkgPath := EmptyString |}.
Definition V_val (A : Z) (b : string) : list (StructField * gval) :=
  [(field_Inner, GStruct "pkg.T" (T_val A b))].

(** Maps of ints under string keys, entries in iteration order. *)
Definition int_map (kvs : list (string * Z)) : gval :=
  GMap TString TInt (map (fun kv => (KeyString (fst kv), GInt (snd kv))) kvs).

(** What [json.Unmarshal] stores into an [interface{}]: a number is a
    [float64], an array is a [[]interface{}], an object is a
    [map[string]interface{}]. *)
Definition json_number (z : Z) : gval := GFloat64 (float64_of_Z z).
Definition json_array (vs : list gval) : gval :=
  GSlice TInterface (map (fun v => GIface (Some v)) vs).
Definition json_object (kvs : list (string * gval)) : gval :=
  GMap TString TInterface
    (map (fun kv => (KeyString (fst kv), GIface (Some (snd kv)))) kvs).

(** The double quote character. *)
Definition dq : string := String (Ascii.ascii_of_nat 34) EmptyString.

(** The JSON texts [{"a":[1,2]}] and [{"a":[2,1]}]. *)
Definition text_a12 : string :=
  String.append "{" (String.append dq (String.append "a" (String.append dq ":[1,2]}"))).
Definition text_a21 : string :=
  String.append "{" (String.append dq (String.append "a" (String.append dq ":[2,1]}"))).

(** [json.Unmarshal] on the sample documents: the two objects above, the
    arrays [[1,2]] and [[2,1]], and [null] decode; [hello] and [hullo] are
    not JSON. *)
Definition sample_documents : list (string * iface) :=
  [ (text_a12, Some (json_object [("a", json_array [json_number 1; json_number 2])]));
    (text_a21, Some (json_object [("a", json_array [json_number 2; json_number 1])]));
    ("[1,2]", Some (json_array [json_number 1; json_number 2]));
    ("[2,1]", Some (json_array [json_number 2; json_number 1]));
    ("null", None) ].

Fixpoint sample_Unmarshal_in (docs : list (string * iface)) (text : string)
    : option iface :=
  match docs with
  | [] => None
  | (t, v) :: docs' => if String.eqb t text then Some v else sample_Unmarshal_in docs' text
  end.

Definition sample_Unmarshal : string → option iface :=
  sample_Unmarshal_in sample_documents.

(** An error made by [errors.New]: a pointer to a fresh [errorString]. *)
Definition field_s : StructField := {| Name := "s"; PkgPath := "errors" |}.
Definition errors_New (address : nat) (text : string) : gval :=
  GPtr (TStruct "errors.errorString" [(field_s, TString)])
       (Some (address, GStruct "errors.errorString" [(field_s, GString text)])).

(** A response without headers and trailers whose body delivers [text] and
    then ends with [err]. *)
Definition response (status : Z) (text : string) (err : iface) : Response :=
  {| StatusCode := status;
     Header := [];
     Body := {| remaining := text; ending := err; reads := 0 |};
     Trailer := [] |}.

(** Whether [MatchesHTTPResponse] gets as far as reading the bodies: the
    status codes are equal and the headers match. *)
Definition reaches_bodies (expected actual : Response) : bool :=
  Z.eqb (StatusCode expected) (StatusCode actual) &&
  match Matches (Some (header_val (Header expected)))
                (Some (header_val (Header actual))) with
  | Ok true => true
  | _ => false
  end.

(** ** Sequences of scalars *)

(** [xs] without the first occurrence of [x], if there is one. *)
Fixpoint remove_first {A : Type} (eqb : A → A → bool) (x : A) (ys : list A)
    : option (list A) :=
  match ys with
  | [] => None
  | y :: ys' =>
      if eqb x y then Some ys' else option_map (cons y) (remove_first eqb x ys')
  end.

(** Every element of [xs] can be taken out of [ys], one occurrence for each
    occurrence. *)
Fixpoint contained {A : Type} (eqb : A → A → bool) (xs ys : list A) : bool :=
  match xs with
  | [] => true
  | x :: xs' =>
      match remove_first eqb x ys with
      | Some rest => contained eqb xs' rest
      | None => false
      end
  end.

Definition strings (ss : list string) : gval := GSlice TString (map GString ss).

(** The values of a header under a name: the first entry with that name. *)
Fixpoint lookup_header (name : string) (h : HeaderMap) : option (list string) :=
  match h with
  | [] => None
  | (n, vs) :: h' => if String.eqb name n then Some vs else lookup_header name h'
  end.

(** ** Values that compare without a panic *)

(** The values that [==] can compare with any value of their type: the
    type is comparable, down to what the interfaces inside hold. *)
Fixpoint eq_safe (v : gval) : bool :=
  match v with
  | GBool _ | GInt _ | GFloat64 _ | GString _ | GPtr _ _ => true
  | GArray _ vs => forallb eq_safe vs
  | GStruct _ fs => forallb (fun p => eq_safe (snd p)) fs
  | GIface None => true
  | GIface (Some x) => comparable (typeOf x) && eq_safe x
  | GSlice _ _ | GMap _ _ _ | GFunc _ _ => false
  end.

(** The values of expected on which the matcher reaches neither a map, nor
    a function, nor an interface that holds a value [==] cannot compare. *)
Fixpoint match_safe (v : gval) : bool :=
  match v with
  | GBool _ | GInt _ | GFloat64 _ | GString _ => true
  | GFunc _ _ | GMap _ _ _ => false
  | GPtr _ None => true
  | GPtr _ (Some (_, x)) => match_safe x
  | GArray _ vs | GSlice _ vs => forallb match_safe vs
  | GStruct _ fs =>
      forallb (fun p => negb (exported (fst p)) || match_safe (snd p)) fs
  | GIface None => true
  | GIface (Some x) => comparable (typeOf x) && eq_safe x
  end.

(** The JSON texts [["x","y"]] and [["y","x"]], and [json.Unmarshal] on
    them. *)
Definition text_xy : string :=
  String.append "[" (String.append dq (String.append "x" (String.append dq
    (String.append "," (String.append dq (String.append "y" (String.append dq "]"))))))).
Definition text_yx : string :=
  String.append "[" (String.append dq (String.append "y" (String.append dq
    (String.append "," (String.append dq (String.append "x" (String.append dq "]"))))))).
Definition string_array_documents : list (string * iface) :=
  [ (text_xy, Some (json_array (map GString ["x"; "y"])));
    (text_yx, Some (json_array (map GString ["y"; "x"]))) ].

(** * Properties *)

(** ** Induction over types and values *)

Section TypeInduction.
Variable P : type → Prop.
Hypothesis bool_ : P TBool.
Hypothesis int : P TInt.
Hypothesis float64 : P TFloat64.
Hypothesis string_ : P TString.
Hypothesis interface : P TInterface.
Hypothesis func : ∀ s, P (TFunc s).
Hypothesis ptr : ∀ a, P a → P (TPtr a).
Hypothesis array : ∀ n a, P a → P (TArray n a).
Hypothesis slice : ∀ a, P a → P (TSlice a).
Hypothesis struct : ∀ n fs, Forall (fun f => P (snd f)) fs → P (TStruct n fs).
Hypothesis map_ : ∀ k a, P k → P a → P (TMap k a).

Fixpoint type_nested_ind (t : type) : P t :=
  match t with
  | TBool => bool_
  | TInt => int
  | TFloat64 => float64
  | TString => string_
  | TInterface => interface
  | TFunc s => func s
  | TPtr a => ptr a (type_nested_ind a)
  | TArray n a => array n a (type_nested_ind a)
  | TSlice a => slice a (type_nested_ind a)
  | TStruct n fs =>
      struct n fs
        ((fix all (fs : list (StructField * type)) : Forall (fun f => P (snd f)) fs :=
            match fs with
            | [] => List.Forall_nil _
            | f :: fs' => List.Forall_cons _ f fs' (type_nested_ind (snd f)) (all fs')
            end) fs)
  | TMap k a => map_ k a (type_nested_ind k) (type_nested_ind a)
  end.
End TypeInduction.

Section ValueInduction.
Variable P : gval → Prop.
Hypothesis bool_ : ∀ b, P (GBool b).
Hypothesis int : ∀ z, P (GInt z).
Hypothesis float64 : ∀ f, P (GFloat64 f).
Hypothesis string_ : ∀ s, P (GString s).
Hypothesis func : ∀ s c, P (GFunc s c).
Hypothesis nil_ptr : ∀ t, P (GPtr t None).
Hypothesis nil_iface : P (GIface None).
Hypothesis ptr : ∀ t a x, P x → P (GPtr t (Some (a, x))).
Hypothesis array : ∀ t vs, Forall P vs → P (GArray t vs).
Hypothesis slice : ∀ t vs, Forall P vs → P (GSlice t vs).
Hypothesis struct : ∀ n fs, Forall (fun f => P (snd f)) fs → P (GStruct n fs).
Hypothesis map_ : ∀ k t kvs, Forall (fun kv => P (snd kv)) kvs → P (GMap k t kvs).
Hypothesis boxed : ∀ x, P x → P (GIface (Some x)).

Fixpoint gval_nested_ind (v : gval) : P v :=
  match v with
  | GBool b => bool_ b
  | GInt z => int z
  | GFloat64 f => float64 f
  | GString s => string_ s
  | GFunc s c => func s c
  | GPtr t None => nil_ptr t
  | GPtr t (Some (a, x)) => ptr t a x (gval_nested_ind x)
  | GArray t vs =>
      array t vs
        ((fix all (vs : list gval) : Forall P vs :=
            match vs with
            | [] => List.Forall_nil _
            | x :: vs' => List.Forall_cons _ x vs' (gval_nested_ind x) (all vs')
            end) vs)
  | GSlice t vs =>
      slice t vs
        ((fix all (vs : list gval) : Forall P vs :=
            match vs with
            | [] => List.Forall_nil _
            | x :: vs' => List.Forall_cons _ x vs' (gval_nested_ind x) (all vs')
            end) vs)
  | GStruct n fs =>
      struct n fs
        ((fix all (fs : list (StructField * gval)) : Forall (fun f => P (snd f)) fs :=
            match fs with
            | [] => List.Forall_nil _
            | f :: fs' => List.Forall_cons _ f fs' (gval_nested_ind (snd f)) (all fs')
            end) fs)
  | GMap k t kvs =>
      map_ k t kvs
        ((fix all (kvs : list (mapkey * gval)) : Forall (fun kv => P (snd kv)) kvs :=
            match kvs with
            | [] => List.Forall_nil _
            | kv :: kvs' => List.Forall_cons _ kv kvs' (gval_nested_ind (snd kv)) (all kvs')
            end) kvs)
  | GIface None => nil_iface
  | GIface (Some x) => boxed x (gval_nested_ind x)
  end.
End ValueInduction.

(** ** Type identity is decided by [type_eqb] *)

Lemma field_eqb_eq f g : field_eqb f g = true ↔ f = g.
Proof.
  destruct f as [n p], g as [m q]; unfold field_eqb; simpl.
  rewrite andb_true_iff, !String.eqb_eq. split.
  - intros [-> ->]; reflexivity.
  - intros [= -> ->]; auto.
Qed.

Lemma type_eqb_eq s t : type_eqb s t = true ↔ s = t.
Proof.
  revert t.
  induction s as [ | | | | | f | a IH | n a IH | a IH | n fs IH | k a IHk IHa]
    using type_nested_ind; intros t;
    destruct t as [ | | | | | | | m gs | | | ]; simpl;
    try (split; [discriminate | congruence]); try (split; reflexivity).
  - rewrite String.eqb_eq. split; congruence.
  - rewrite IH. split; congruence.
  - rewrite andb_true_iff, Nat.eqb_eq, IH.
    split; [intros [-> ->] | intros [= -> ->]]; auto.
  - rewrite IH. split; congruence.
  - rewrite andb_true_iff, String.eqb_eq.
    assert (Hfs : ∀ gs,
      (fix fields_eqb (fs gs : list (StructField * type)) {struct fs} : bool :=
         match fs, gs with
         | [], [] => true
         | (f, a) :: fs', (g, b) :: gs' =>
             field_eqb f g && type_eqb a b && fields_eqb fs' gs'
         | _, _ => false
         end) fs gs = true ↔ fs = gs).
    { clear gs. induction IH as [| [f a] fs Ha _ IHfs]; intros [| [g b] gs];
        try (split; [discriminate | congruence]); [split; reflexivity |].
      rewrite !andb_true_iff, field_eqb_eq, IHfs. simpl in Ha. rewrite Ha.
      split; [intros [[-> ->] ->] | intros [= -> -> ->]]; auto. }
    rewrite Hfs. split; [intros [-> ->] | intros [= -> ->]]; auto.
  - rewrite andb_true_iff, IHk, IHa.
    split; [intros [-> ->] | intros [= -> ->]]; auto.
Qed.

Lemma type_eqb_refl t : type_eqb t t = true.
Proof. apply type_eqb_eq; reflexivity. Qed.

Lemma type_eqb_neq s t : s ≠ t → type_eqb s t = false.
Proof.
  intros H. destruct (type_eqb s t) eqn:E; [| reflexivity].
  apply type_eqb_eq in E. contradiction.
Qed.

(** ** Unfolding the matcher *)

(** One step of [matchesValid] on a valid [actual]: the type test, then the
    case of [expected]'s kind. *)
Lemma matchesValid_mismatch e a :
  typeOf e ≠ typeOf a → matchesValid e (Val a) = Ok false.
Proof.
  intros H. apply type_eqb_neq in H.
  destruct e; simpl in *; rewrite H; reflexivity.
Qed.

Lemma matchesValid_invalid e : matchesValid e Invalid = Panic (ValueError "reflect.Value.Type").
Proof. destruct e; reflexivity. Qed.

Lemma matchesValid_unfold_seq e a es items :
  match e with GArray _ vs | GSlice _ vs => vs = es | _ => False end →
  match a with GArray _ vs | GSlice _ vs => vs = items | _ => False end →
  matchesValid e (Val a)
  = if negb (type_eqb (typeOf e) (typeOf a)) then Ok false
    else if negb (Nat.eqb (length es) (length items)) then Ok false
    else each_element matchesValid (Val a) (length items) es ∅.
Proof.
  intros He Ha.
  destruct e; try contradiction; destruct a; try contradiction; subst; reflexivity.
Qed.

(** C7. Two valid values whose runtime types differ do not match: the
    comparison returns false at once, whatever their kind and content, at
    the top and at every node of the recursion; so do two positions of
    interface type that hold values of different dynamic types. *)
Theorem type_mismatch_is_false (e a : gval) :
  typeOf e ≠ typeOf a →
  matchesValues (Val e) (Val a) = Ok false
  ∧ Matches (Some e) (Some a) = Ok false
  ∧ matchesValues (Val (GIface (Some e))) (Val (GIface (Some a))) = Ok false.
Proof.
  intros H. split; [| split]; try (apply matchesValid_mismatch; exact H).
  simpl. rewrite (type_eqb_neq _ _ H). reflexivity.
Qed.

(** [Matches(int(1), "1")] is false although the textual forms coincide. *)
Lemma type_mismatch_int_string :
  typeOf (GInt 1) ≠ typeOf (GString "1")
  ∧ matchesValues (Val (GInt 1)) (Val (GString "1")) = Ok false
  ∧ Matches (Some (GInt 1)) (Some (GString "1")) = Ok false.
Proof.
  split; [discriminate |].
  destruct (type_mismatch_is_false (GInt 1) (GString "1")) as (H1 & H2 & _);
    [discriminate |].
  split; assumption.
Defined.

(** C8. Two pointers of one type: both nil match, exactly one nil does not
    match, and two non-nil pointers match exactly when the values they point
    to match. *)
Theorem pointer_matching (t : type) :
  matchesValues (Val (GPtr t None)) (Val (GPtr t None)) = Ok true
  ∧ (∀ b y, matchesValues (Val (GPtr t None)) (Val (GPtr t (Some (b, y)))) = Ok false)
  ∧ (∀ a x, matchesValues (Val (GPtr t (Some (a, x)))) (Val (GPtr t None)) = Ok false)
  ∧ (∀ a x b y,
       matchesValues (Val (GPtr t (Some (a, x)))) (Val (GPtr t (Some (b, y))))
       = matchesValues (Val x) (Val y)).
Proof.
  repeat split; intros; simpl; rewrite type_eqb_refl; reflexivity.
Qed.

(** ** Sequences: the index loops refine the multiset matching *)

Lemma unconsumed_at_all (pre items : list gval) :
  unconsumed_at (pre ++ items) ∅ (seq (length pre) (length items)) = items.
Proof.
  revert pre. induction items as [| x xs IH]; intros pre; [reflexivity |].
  simpl. rewrite lookup_empty. simpl.
  rewrite list_lookup_middle by reflexivity.
  f_equal. specialize (IH (pre ++ [x])).
  rewrite <- app_assoc, length_app in IH. simpl in IH.
  rewrite Nat.add_1_r in IH. exact IH.
Qed.

Lemma marked_after_insert (used : gmap nat bool) (j k : nat) :
  default false (<[j := true]> used !! k)
  = if decide (j = k) then true else default false (used !! k).
Proof.
  destruct (decide (j = k)) as [-> | Hne].
  - rewrite lookup_insert_eq. reflexivity.
  - rewrite lookup_insert_ne by exact Hne. reflexivity.
Qed.

Lemma unconsumed_at_insert_fresh items (used : gmap nat bool) j js :
  j ∉ js →
  unconsumed_at items (<[j := true]> used) js = unconsumed_at items used js.
Proof.
  induction js as [| k js IH]; intros Hj; [reflexivity |].
  apply not_elem_of_cons in Hj as [Hne Hj]. simpl.
  rewrite marked_after_insert. destruct (decide (j = k)); [contradiction |].
  rewrite IH by exact Hj. reflexivity.
Qed.

Section SequenceRefinement.

Variable m : gval → Value → result bool.
Variable actual : Value.
Variable items : list gval.
Hypothesis Index_items : ∀ j,
  Index actual j = match items !! j with
                   | Some x => Ok (Val x)
                   | None => Panic IndexOutOfRange
                   end.

Lemma scan_found_in e used js j :
  scan (m e) actual used js = Ok (Some j) → j ∈ js.
Proof.
  induction js as [| k js IH]; simpl; [discriminate |].
  destruct (default false (used !! k)).
  - intros H. right. auto.
  - destruct (Index actual k) as [ak |]; simpl; [| discriminate].
    destruct (m e ak) as [[|] |]; simpl; try discriminate.
    + intros [= ->]. left.
    + intros H. right. auto.
Qed.

(** The inner loop finds the index of the element that [consume_first]
    consumes, or neither finds one. *)
Lemma scan_consumes e used js :
  NoDup js → (∀ j, j ∈ js → j < length items) →
  (found ← scan (m e) actual used js;
   Ok (option_map (fun j => unconsumed_at items (<[j := true]> used) js) found))
  = consume_first (fun e a => m e (Val a)) e (unconsumed_at items used js).
Proof.
  induction js as [| k js IH]; intros Hnd Hlt; [reflexivity |].
  apply NoDup_cons in Hnd as [Hk Hnd].
  assert (Hlt' : ∀ j, j ∈ js → j < length items) by (intros j Hj; apply Hlt; right; exact Hj).
  specialize (IH Hnd Hlt').
  assert (Hin := scan_found_in e used js).
  simpl.
  destruct (default false (used !! k)) eqn:Hused.
  - rewrite <- IH. destruct (scan (m e) actual used js) as [[j |] |]; simpl; try reflexivity.
    rewrite marked_after_insert, Hused. destruct (decide (j = k)); reflexivity.
  - destruct (lookup_lt_is_Some_2 items k) as [x Hx]; [apply Hlt; left |].
    rewrite Index_items, Hx. simpl.
    destruct (m e (Val x)) as [[|] |]; simpl; try reflexivity.
    + rewrite marked_after_insert. destruct (decide (k = k)); [| contradiction].
      f_equal. f_equal. apply (unconsumed_at_insert_fresh items used k js Hk).
    + rewrite <- IH. destruct (scan (m e) actual used js) as [[j |] |]; simpl; try reflexivity.
      rewrite marked_after_insert.
      destruct (decide (j = k)) as [-> | _]; [exfalso; apply Hk, Hin; reflexivity |].
      rewrite Hused. reflexivity.
Qed.

(** The outer loop is the multiset matching of the elements still to come
    against the elements not yet consumed. *)
Lemma each_element_refines es used :
  each_element m actual (length items) es used
  = multiset_match (fun e a => m e (Val a)) es
      (unconsumed_at items used (seq 0 (length items))).
Proof.
  revert used. induction es as [| e es IH]; intros used; [reflexivity |].
  simpl. rewrite <- scan_consumes.
  - destruct (scan (m e) actual used (seq 0 (length items))) as [[j |] |]; simpl;
      [apply IH | reflexivity | reflexivity].
  - apply NoDup_seq.
  - intros j Hj. apply elem_of_seq in Hj. lia.
Qed.

End SequenceRefinement.

(** The outer loop started on all of [items] with nothing consumed is the
    multiset matching against [items]. *)
Lemma each_element_from_start (m : gval → Value → result bool) actual items es :
  (∀ j, Index actual j = match items !! j with
                         | Some x => Ok (Val x)
                         | None => Panic IndexOutOfRange
                         end) →
  each_element m actual (length items) es ∅
  = multiset_match (fun e a => m e (Val a)) es items.
Proof.
  intros Hindex. rewrite (each_element_refines m actual items Hindex).
  pose proof (unconsumed_at_all [] items) as Hall. simpl in Hall.
  rewrite Hall. reflexivity.
Qed.

(** Turn the loops of the sequence case into the multiset matching. *)
Ltac to_multiset_match :=
  rewrite each_element_from_start by (intros; reflexivity).

(** C1. Two sequences (slices or arrays) of one type match exactly as the
    unordered multiset matching prescribes: false when the lengths differ;
    otherwise each element of expected, in order, consumes the first not yet
    consumed element of actual that recursively matches it, and the
    comparison is false as soon as none does.  So [1,2,3] matches [3,1,2],
    [1,2,2] matches [2,1,2], [1,2,2] does not match [1,2,3] and [1,2] does
    not match [1,2,3]. *)
Theorem sequences_match_as_multisets (t : type) (expected actual : list gval) :
  Matches (Some (GSlice t expected)) (Some (GSlice t actual))
    = sequence_match expected actual
  ∧ Matches (Some (GArray t expected)) (Some (GArray t actual))
    = sequence_match expected actual
  ∧ Matches (Some (ints [1; 2; 3]%Z)) (Some (ints [3; 1; 2]%Z)) = Ok true
  ∧ Matches (Some (ints [1; 2; 2]%Z)) (Some (ints [2; 1; 2]%Z)) = Ok true
  ∧ Matches (Some (ints [1; 2; 2]%Z)) (Some (ints [1; 2; 3]%Z)) = Ok false
  ∧ Matches (Some (ints [1; 2]%Z)) (Some (ints [1; 2; 3]%Z)) = Ok false.
Proof.
  split; [| split; [| repeat split; vm_compute; reflexivity]].
  - unfold sequence_match, Matches. simpl. rewrite type_eqb_refl. simpl.
    destruct (Nat.eqb (length expected) (length actual)); simpl; [| reflexivity].
    to_multiset_match. reflexivity.
  - unfold sequence_match, Matches. simpl. rewrite type_eqb_refl, andb_true_r.
    destruct (Nat.eqb (length expected) (length actual)); simpl; [| reflexivity].
    to_multiset_match. reflexivity.
Qed.

(** ** Structs and their unexported fields *)

Lemma each_field_no_exported m actual fs i :
  no_exported fs → each_field m actual fs i = Ok true.
Proof.
  intros H. revert i. induction H as [| [f x] fs Hf _ IH]; intros i; [reflexivity |].
  simpl in *. fold (exported f). rewrite Hf. simpl. apply IH.
Qed.

(** C9, the code where an unexported field counts.  A struct held in a
    field of interface type never reaches the struct case: the two
    interface values are compared with [==], which looks at every field.
    So [W{F: T{1, x}}] matches itself and does not match [W{F: T{1, y}}],
    which differs from it in the unexported field [b] of [T] only; the
    struct case, applied to the two [T] directly, skips [b] and finds a
    match. *)
Theorem unexported_field_in_interface_counts :
  well_formed_iface (Some (GStruct "pkg.W" (W_val (GStruct "pkg.T" (T_val 1 "x"))))) = true
  ∧ well_formed_iface (Some (GStruct "pkg.W" (W_val (GStruct "pkg.T" (T_val 1 "y"))))) = true
  ∧ Matches (Some (GStruct "pkg.W" (W_val (GStruct "pkg.T" (T_val 1 "x")))))
            (Some (GStruct "pkg.W" (W_val (GStruct "pkg.T" (T_val 1 "x"))))) = Ok true
  ∧ Matches (Some (GStruct "pkg.W" (W_val (GStruct "pkg.T" (T_val 1 "x")))))
            (Some (GStruct "pkg.W" (W_val (GStruct "pkg.T" (T_val 1 "y"))))) = Ok false
  ∧ Matches (Some (GStruct "pkg.T" (T_val 1 "x")))
            (Some (GStruct "pkg.T" (T_val 1 "y"))) = Ok true.
Proof. repeat split; vm_compute; reflexivity. Qed.

(** ** Reflexivity *)

Lemma key_eqb_eq k l : key_eqb k l = true ↔ k = l.
Proof.
  destruct k, l; simpl; try (split; [discriminate | congruence]).
  - rewrite Bool.eqb_true_iff. split; congruence.
  - rewrite Z.eqb_eq. split; congruence.
  - rewrite String.eqb_eq. split; congruence.
Qed.

Lemma lookup_key_distinct kvs k x :
  distinct_keys kvs = true → (k, x) ∈ kvs → lookup_key k kvs = Some x.
Proof.
  induction kvs as [| [l y] kvs IH]; intros Hd Hin; [inversion Hin |].
  simpl in Hd. apply andb_true_iff in Hd as [Hfresh Hd]. simpl.
  apply elem_of_cons in Hin as [[= -> ->] | Hin].
  - rewrite (proj2 (key_eqb_eq l l) eq_refl). reflexivity.
  - destruct (key_eqb k l) eqn:Hkl; [| apply IH; assumption].
    apply key_eqb_eq in Hkl as ->.
    apply negb_true_iff in Hfresh.
    assert (existsb (fun kv => key_eqb l (fst kv)) kvs = true) as Hex.
    { apply existsb_exists. exists (l, x). split; [apply list_elem_of_In, Hin |].
      apply key_eqb_eq. reflexivity. }
    congruence.
Qed.

Lemma valEq_refl v : eq_reflexive v = true → valEq v v = Ok true.
Proof.
  induction v as [b | z | f | s | s c | t | | t a x IH | t vs IH | t vs IH
                 | n fs IH | k t kvs IH | x IH] using gval_nested_ind;
    simpl; intros H; try discriminate; try reflexivity.
  - rewrite Bool.eqb_reflx. reflexivity.
  - rewrite Z.eqb_refl. reflexivity.
  - rewrite H. reflexivity.
  - rewrite String.eqb_refl. reflexivity.
  - rewrite Nat.eqb_refl. reflexivity.
  - induction IH as [| x vs Hx _ IHvs]; [reflexivity |].
    simpl in H. apply andb_true_iff in H as [H1 H2].
    rewrite (Hx H1). simpl. apply IHvs, H2.
  - induction IH as [| [f x] fs Hx _ IHfs]; [reflexivity |].
    simpl in H, Hx. apply andb_true_iff in H as [H1 H2].
    rewrite (Hx H1). simpl. destruct (String.eqb (Name f) "_"); apply IHfs, H2.
  - apply andb_true_iff in H as [H1 H2].
    rewrite type_eqb_refl, H1. simpl. apply IH, H2.
Qed.

Lemma ifaceEq_refl x :
  comparable (typeOf x) = true → eq_reflexive x = true → ifaceEq (Some x) (Some x) = Ok true.
Proof.
  intros Hc Hx. simpl. rewrite type_eqb_refl, Hc. simpl. apply valEq_refl, Hx.
Qed.

Lemma multiset_match_refl (m : gval → gval → result bool) vs :
  Forall (fun x => m x x = Ok true) vs → multiset_match m vs vs = Ok true.
Proof.
  induction 1 as [| x vs Hx _ IH]; [reflexivity |].
  simpl. rewrite Hx. simpl. exact IH.
Qed.

Lemma each_field_refl (m : gval → Value → result bool) n full fs i :
  drop i full = fs →
  Forall (fun p => exported (fst p) = true → m (snd p) (Val (snd p)) = Ok true) fs →
  each_field m (Val (GStruct n full)) fs i = Ok true.
Proof.
  intros Hdrop Hfs. revert i Hdrop.
  induction Hfs as [| [f x] fs Hx _ IH]; intros i Hdrop; [reflexivity |].
  assert (Hnext : drop (S i) full = fs).
  { rewrite <- (Nat.add_1_r i), <- drop_drop, Hdrop. reflexivity. }
  simpl in *. fold (exported f). destruct (exported f); simpl; [| apply IH, Hnext].
  assert (Hi : full !! i = Some (f, x)).
  { rewrite <- (Nat.add_0_r i), <- lookup_drop, Hdrop. reflexivity. }
  rewrite Hi. simpl. rewrite (Hx eq_refl). simpl. apply IH, Hnext.
Qed.

Lemma each_key_refl (m : gval → Value → result bool) k t full kvs :
  (∀ key x, (key, x) ∈ kvs → lookup_key key full = Some x) →
  Forall (fun kv => m (snd kv) (Val (snd kv)) = Ok true) kvs →
  each_key m (Val (GMap k t full)) kvs = Ok true.
Proof.
  intros Hfull Hkvs.
  induction Hkvs as [| [key x] kvs Hx _ IH]; [reflexivity |].
  simpl in *. rewrite (Hfull key x) by left. simpl. rewrite Hx. simpl.
  apply IH. intros key' x' Hin. apply Hfull. right. exact Hin.
Qed.

Lemma matchesValid_refl v :
  match_reflexive v = true → matchesValid v (Val v) = Ok true.
Proof.
  induction v as [b | z | f | s | s c | t | | t a x IH | t vs IH | t vs IH
                 | n fs IH | k t kvs IH | x IH] using gval_nested_ind;
    intros H; cbn [matchesValid Type_ mbind result_bind];
    rewrite type_eqb_refl; cbn [negb]; simpl in H; try discriminate.
  - simpl. rewrite Bool.eqb_reflx. reflexivity.
  - simpl. rewrite Z.eqb_refl. reflexivity.
  - simpl. rewrite H. reflexivity.
  - simpl. rewrite String.eqb_refl. reflexivity.
  - reflexivity.
  - reflexivity.
  - simpl. apply IH, H.
  - simpl. rewrite Nat.eqb_refl. simpl.
    to_multiset_match. apply multiset_match_refl. apply Forall_forall. intros x Hx.
    apply (proj1 (Forall_forall _ _) IH x Hx).
    apply (proj1 (forallb_forall _ _) H x), list_elem_of_In, Hx.
  - simpl. rewrite Nat.eqb_refl. simpl.
    to_multiset_match. apply multiset_match_refl. apply Forall_forall. intros x Hx.
    apply (proj1 (Forall_forall _ _) IH x Hx).
    apply (proj1 (forallb_forall _ _) H x), list_elem_of_In, Hx.
  - apply each_field_refl; [apply drop_0 |].
    apply Forall_forall. intros [f x] Hx Hexp. simpl in *.
    apply (proj1 (Forall_forall _ _) IH (f, x) Hx).
    pose proof (proj1 (forallb_forall _ _) H (f, x) (proj1 (list_elem_of_In _ _) Hx)) as Hfx.
    simpl in Hfx. rewrite Hexp in Hfx. exact Hfx.
  - apply andb_true_iff in H as [Hd H].
    apply each_key_refl; [intros key x; apply lookup_key_distinct, Hd |].
    apply Forall_forall. intros kv Hkv.
    apply (proj1 (Forall_forall _ _) IH kv Hkv).
    apply (proj1 (forallb_forall _ _) H kv), list_elem_of_In, Hkv.
  - apply andb_true_iff in H as [Hc Hx]. simpl. rewrite type_eqb_refl, Hc. simpl.
    apply valEq_refl, Hx.
Qed.

Lemma copy_of_type v : ∀ w, copy_of v w → typeOf v = typeOf w.
Proof.
  induction v as [b | z | f | s | s c | t | | t a x IH | t vs IH | t vs IH
                 | n fs IH | k t kvs IH | x IH] using gval_nested_ind;
    intros w Hc; inversion Hc; subst; try reflexivity.
  - simpl. f_equal. eapply Forall2_length; eassumption.
  - simpl. f_equal. clear Hc.
    match goal with
    | H : Forall2 _ fs _ |- _ =>
        revert IH; induction H as [| [f x] [g y] fs gs [Hf Hxy] _ IHfs]
    end; intros IH; [reflexivity |].
    simpl in *. apply Forall_cons in IH as [Hx IH]. simpl in Hx.
    rewrite Hf, (Hx y Hxy), (IHfs IH). reflexivity.
Qed.

Lemma multiset_match_pairs (m : gval → gval → result bool) xs ys :
  Forall2 (fun x y => m x y = Ok true) xs ys → multiset_match m xs ys = Ok true.
Proof.
  induction 1 as [| x y xs ys Hxy _ IH]; [reflexivity |].
  simpl. rewrite Hxy. simpl. exact IH.
Qed.

Lemma each_field_pairs (m : gval → Value → result bool) n full fs i :
  Forall2 (fun p q => fst p = fst q
                      ∧ (exported (fst p) = true → m (snd p) (Val (snd q)) = Ok true))
          fs (drop i full) →
  each_field m (Val (GStruct n full)) fs i = Ok true.
Proof.
  revert i. induction fs as [| [f x] fs IH]; intros i Hfs; [reflexivity |].
  destruct (drop i full) as [| [g y] rest] eqn:Hdrop; [inversion Hfs |].
  apply Forall2_cons in Hfs as [[Hf Hxy] Hfs]. simpl in Hf, Hxy. subst g.
  assert (Hnext : drop (S i) full = rest).
  { rewrite <- (Nat.add_1_r i), <- drop_drop, Hdrop. reflexivity. }
  rewrite <- Hnext in Hfs.
  simpl. fold (exported f). destruct (exported f); simpl; [| apply IH, Hfs].
  assert (Hi : full !! i = Some (f, y)).
  { rewrite <- (Nat.add_0_r i), <- lookup_drop, Hdrop. reflexivity. }
  rewrite Hi. simpl. rewrite (Hxy eq_refl). simpl. apply IH, Hfs.
Qed.

Lemma each_key_pairs (m : gval → Value → result bool) k t full kvs :
  Forall (fun kv => ∃ y, lookup_key (fst kv) full = Some y
                         ∧ m (snd kv) (Val y) = Ok true) kvs →
  each_key m (Val (GMap k t full)) kvs = Ok true.
Proof.
  induction 1 as [| [key x] kvs (y & Hy & Hxy) _ IH]; [reflexivity |].
  simpl in *. rewrite Hy. simpl. rewrite Hxy. simpl. exact IH.
Qed.

(** C6, as the code has it.  [Matches(v, w)] is true for every value [v]
    and structural copy [w] of it when the leaves that the matcher compares
    are equal to themselves under [==]: no NaN and no function among them,
    and every position of interface type holding nil or a value of
    comparable type without NaN. *)
Theorem Matches_reflexive (v w : gval) :
  match_reflexive v = true → copy_of v w → Matches (Some v) (Some w) = Ok true.
Proof.
  intros H Hc. change (matchesValid v (Val w) = Ok true). revert w Hc H.
  induction v as [b | z | f | s | s c | t | | t a x IH | t vs IH | t vs IH
                 | n fs IH | k t kvs IH | x IH] using gval_nested_ind;
    intros w Hc H; inversion Hc; subst; try (apply matchesValid_refl; exact H).
  - cbn [matchesValid Type_ mbind result_bind]. rewrite type_eqb_refl. simpl.
    apply IH; assumption.
  - match goal with Hp : Forall2 copy_of vs ys |- _ => rename Hp into Hys end.
    rewrite (matchesValid_unfold_seq (GArray t vs) (GArray t ys) vs ys eq_refl eq_refl).
    rewrite <- (copy_of_type _ _ Hc), type_eqb_refl.
    rewrite (Forall2_length _ _ _ Hys), Nat.eqb_refl. cbn [negb].
    to_multiset_match. apply multiset_match_pairs. simpl in H.
    clear Hc. induction Hys as [| x y xs ys Hxy _ IHxs]; [constructor |].
    simpl in H. apply andb_true_iff in H as [Hx H].
    apply Forall_cons in IH as [IHx IH].
    constructor; [apply IHx; assumption | apply IHxs; assumption].
  - match goal with Hp : Forall2 copy_of vs ys |- _ => rename Hp into Hys end.
    rewrite (matchesValid_unfold_seq (GSlice t vs) (GSlice t ys) vs ys eq_refl eq_refl).
    rewrite <- (copy_of_type _ _ Hc), type_eqb_refl.
    rewrite (Forall2_length _ _ _ Hys), Nat.eqb_refl. cbn [negb].
    to_multiset_match. apply multiset_match_pairs. simpl in H.
    clear Hc. induction Hys as [| x y xs ys Hxy _ IHxs]; [constructor |].
    simpl in H. apply andb_true_iff in H as [Hx H].
    apply Forall_cons in IH as [IHx IH].
    constructor; [apply IHx; assumption | apply IHxs; assumption].
  - match goal with Hp : Forall2 _ fs gs |- _ => rename Hp into Hgs end.
    cbn [matchesValid Type_ mbind result_bind].
    rewrite <- (copy_of_type _ _ Hc), type_eqb_refl. cbn [negb].
    apply each_field_pairs. rewrite drop_0. simpl in H.
    clear Hc. induction Hgs as [| [f x] [g y] fs gs [Hf Hxy] _ IHfs]; [constructor |].
    simpl in H, Hf, Hxy. apply andb_true_iff in H as [Hx H].
    apply Forall_cons in IH as [IHx IH]. simpl in IHx.
    constructor; [| apply IHfs; assumption].
    split; [exact Hf |]. simpl. intros Hexp. rewrite Hexp in Hx. apply IHx; assumption.
  - match goal with Hp : Forall (fun kv => ∃ y, _) kvs |- _ => rename Hp into Hm end.
    cbn [matchesValid Type_ mbind result_bind]. rewrite type_eqb_refl. cbn [negb].
    apply each_key_pairs. simpl in H. apply andb_true_iff in H as [_ H].
    clear Hc. induction Hm as [| [key x] kvs (y & Hy & Hxy) _ IHkvs]; [constructor |].
    simpl in H, Hy, Hxy. apply andb_true_iff in H as [Hx H].
    apply Forall_cons in IH as [IHx IH]. simpl in IHx.
    constructor; [| apply IHkvs; assumption].
    exists y. split; [exact Hy | apply IHx; assumption].
Qed.

Lemma Matches_reflexive_witness :
  let v := GPtr (TSlice TInterface)
             (Some (1, GSlice TInterface [GIface (Some (GInt 1)); GIface None;
                                          GIface (Some (GString "a"))])) in
  let w := GPtr (TSlice TInterface)
             (Some (2, GSlice TInterface [GIface (Some (GInt 1)); GIface None;
                                          GIface (Some (GString "a"))])) in
  match_reflexive v = true ∧ copy_of v w
  ∧ Matches (Some v) (Some v) = Ok true ∧ Matches (Some v) (Some w) = Ok true.
Proof.
  assert (Hc : copy_of
    (GPtr (TSlice TInterface)
       (Some (1, GSlice TInterface [GIface (Some (GInt 1)); GIface None;
                                    GIface (Some (GString "a"))])))
    (GPtr (TSlice TInterface)
       (Some (2, GSlice TInterface [GIface (Some (GInt 1)); GIface None;
                                    GIface (Some (GString "a"))])))).
  { apply copy_ptr, copy_same. }
  split; [reflexivity |]. split; [exact Hc |]. split.
  - apply Matches_reflexive; [reflexivity | apply copy_same].
  - apply Matches_reflexive; [reflexivity | exact Hc].
Defined.

(** A NaN does not match itself: the leaves are compared with [==]. *)
Lemma NaN_does_not_match_itself :
  well_formed_iface (Some NaN) = true
  ∧ Matches (Some NaN) (Some NaN) = Ok false
  ∧ ¬ (∀ v : gval, Matches (Some v) (Some v) = Ok true).
Proof.
  split; [reflexivity |]. split; [reflexivity |].
  intros H. specialize (H NaN). discriminate H.
Qed.

(** ** Maps: driven by the keys of expected *)

(** The verdict depends on [actual] only through the entries under the
    keys of [expected]: other keys of [actual] are never looked at. *)
Lemma each_key_agree m k t k' t' kvs1 kvs2 kvs :
  (∀ key x, (key, x) ∈ kvs → lookup_key key kvs1 = lookup_key key kvs2) →
  each_key m (Val (GMap k t kvs1)) kvs = each_key m (Val (GMap k' t' kvs2)) kvs.
Proof.
  induction kvs as [| [key x] kvs IH]; intros Hsame; [reflexivity |].
  simpl. rewrite (Hsame key x) by left.
  rewrite IH; [reflexivity |]. intros key' x' Hin. apply (Hsame key' x'). right. exact Hin.
Qed.

(** X5. Two actual maps that hold the same entries under the keys of
    expected get the same verdict, be it true, false or a panic: the other
    entries of actual are never looked at. *)
Lemma extra_keys_are_ignored k t kvs kvs1 kvs2 :
  (∀ key x, (key, x) ∈ kvs → lookup_key key kvs1 = lookup_key key kvs2) →
  matchesValues (Val (GMap k t kvs)) (Val (GMap k t kvs1))
  = matchesValues (Val (GMap k t kvs)) (Val (GMap k t kvs2)).
Proof.
  intros Hsame. simpl. rewrite !type_eqb_refl. simpl.
  apply each_key_agree, Hsame.
Qed.

(** A key of [expected] that [actual] lacks never yields a match: the loop
    stops with false at an earlier key or panics at the missing one. *)
Lemma each_key_missing k t kvs1 kvs key x :
  (key, x) ∈ kvs → lookup_key key kvs1 = None →
  each_key matchesValid (Val (GMap k t kvs1)) kvs ≠ Ok true.
Proof.
  induction kvs as [| [key' x'] kvs IH]; intros Hin Hnone; [inversion Hin |].
  simpl. apply elem_of_cons in Hin as [[= <- <-] | Hin].
  - rewrite Hnone. simpl. rewrite matchesValid_invalid. discriminate.
  - specialize (IH Hin Hnone).
    destruct (lookup_key key' kvs1) as [y |]; simpl.
    + destruct (matchesValid x' (Val y)) as [[|] |]; simpl;
        [exact IH | discriminate | discriminate].
    + rewrite matchesValid_invalid. discriminate.
Qed.

Lemma missing_key_never_matches k t kvs kvs' key x :
  (key, x) ∈ kvs → lookup_key key kvs' = None →
  Matches (Some (GMap k t kvs)) (Some (GMap k t kvs')) ≠ Ok true.
Proof.
  intros Hin Hnone. unfold Matches. simpl. rewrite !type_eqb_refl. simpl.
  apply (each_key_missing k t kvs' kvs key x Hin Hnone).
Qed.

(** C3, the code at the specification's second example.  [Matches] of the map
    [{a:1, b:2}] against [{a:1}] panics, in whichever order the keys of
    expected are visited: [MapIndex] returns the zero Value for the missing
    key [b] and [matchesValues] calls [Type] on it.  A missing key is not
    taken for a zero: [{a:0}] against the empty map panics, while [{a:0}]
    matches [{a:0}].  The first example, [{a:1}] against [{a:1, b:2}], is
    true. *)
Theorem missing_key_panics :
  well_formed_iface (Some (int_map [("a", 1); ("b", 2)]%Z)) = true
  ∧ well_formed_iface (Some (int_map [("a", 1)]%Z)) = true
  ∧ Matches (Some (int_map [("a", 1); ("b", 2)]%Z)) (Some (int_map [("a", 1)]%Z))
    = Panic (ValueError "reflect.Value.Type")
  ∧ Matches (Some (int_map [("b", 2); ("a", 1)]%Z)) (Some (int_map [("a", 1)]%Z))
    = Panic (ValueError "reflect.Value.Type")
  ∧ Matches (Some (int_map [("a", 0)]%Z)) (Some (int_map []))
    = Panic (ValueError "reflect.Value.Type")
  ∧ Matches (Some (int_map [("a", 0)]%Z)) (Some (int_map [("a", 0)]%Z)) = Ok true
  ∧ Matches (Some (int_map [("a", 1)]%Z)) (Some (int_map [("a", 1); ("b", 2)]%Z))
    = Ok true.
Proof. repeat split; vm_compute; reflexivity. Qed.

(** C2, the code at inputs on which it raises.  [Matches] panics on a nil
    interface, on a map of expected with a key that actual lacks, on two
    equal functions, and on two interface-typed elements that both hold a
    slice (as in decoded JSON). *)
Theorem Matches_panics :
  Matches None None = Panic (ValueError "reflect.Value.Type")
  ∧ Matches (Some (GInt 1)) None = Panic (ValueError "reflect.Value.Type")
  ∧ Matches (Some (int_map [("a", 0)]%Z)) (Some (int_map [])) 
    = Panic (ValueError "reflect.Value.Type")
  ∧ Matches (Some (GFunc "func()" (Some 1))) (Some (GFunc "func()" (Some 1)))
    = Panic (Uncomparable "func()")
  ∧ Matches (Some (json_array [json_array []])) (Some (json_array [json_array []]))
    = Panic (Uncomparable "[]interface {}")
  ∧ well_formed_iface (Some (int_map [("a", 0)]%Z)) = true
  ∧ well_formed_iface (Some (int_map [])) = true
  ∧ well_formed_iface (Some (GFunc "func()" (Some 1))) = true
  ∧ well_formed_iface (Some (json_array [json_array []])) = true.
Proof. repeat split; vm_compute; reflexivity. Qed.

(** ** HTTP responses *)

(** C4, as the code has it.  Once the status codes are equal and the
    headers match, each body is read once, to its end; if a read fails the
    verdict is [expErr == actErr], which is false when exactly one read
    failed; if both reads succeed the verdict is that of the trailer and
    body comparison. *)
Theorem body_read_failures (Unmarshal : string → option iface)
    (expected actual : Response) :
  StatusCode expected = StatusCode actual →
  Matches (Some (header_val (Header expected))) (Some (header_val (Header actual)))
    = Ok true →
  let outcome := MatchesHTTPResponse Unmarshal expected actual in
  let expErr := ending (Body expected) in
  let actErr := ending (Body actual) in
  snd outcome = (snd (ReadAll (Body expected)), snd (ReadAll (Body actual)))
  ∧ (expErr ≠ None ∨ actErr ≠ None → fst outcome = ifaceEq expErr actErr)
  ∧ (expErr ≠ None ∧ actErr = None ∨ expErr = None ∧ actErr ≠ None →
     fst outcome = Ok false)
  ∧ (expErr = None ∧ actErr = None →
     fst outcome = matchesRead Unmarshal expected actual
                     (remaining (Body expected)) (remaining (Body actual))).
Proof.
  intros Hstatus Hheader. unfold MatchesHTTPResponse.
  rewrite Hstatus, Z.eqb_refl, Hheader. simpl.
  destruct (ending (Body expected)) as [e |], (ending (Body actual)) as [a |]; simpl;
    repeat split; try reflexivity; intuition congruence.
Qed.

Lemma body_read_failures_witness :
  let expected := response 200 "hello" (Some (errors_New 1 "timeout")) in
  let actual := response 200 "hello" None in
  let outcome := MatchesHTTPResponse sample_Unmarshal expected actual in
  StatusCode expected = StatusCode actual
  ∧ snd outcome = (snd (ReadAll (Body expected)), snd (ReadAll (Body actual)))
  ∧ fst outcome = Ok false.
Proof.
  pose proof (body_read_failures sample_Unmarshal
                (response 200 "hello" (Some (errors_New 1 "timeout")))
                (response 200 "hello" None) eq_refl eq_refl) as (Hread & _ & Hone & _).
  split; [reflexivity |]. split; [exact Hread |].
  apply Hone. left. split; [discriminate | reflexivity].
Defined.

(** Two reads that fail with different errors do not match. *)
Lemma different_read_errors_do_not_match :
  let expected := response 200 "hello" (Some (errors_New 1 "unexpected EOF")) in
  let actual := response 200 "hello" (Some (errors_New 2 "connection reset")) in
  reaches_bodies expected actual = true
  ∧ ending (Body expected) ≠ None ∧ ending (Body actual) ≠ None
  ∧ fst (MatchesHTTPResponse sample_Unmarshal expected actual) = Ok false.
Proof. repeat split; try discriminate; vm_compute; reflexivity. Qed.

(** C10, as the code has it.  The bodies are read only when the status
    codes are equal and the headers match, and then each is read once, to
    its end, before the trailers and the bodies are compared; otherwise the
    call ends without a match and without touching either body. *)
Theorem bodies_read_at_most_once (Unmarshal : string → option iface)
    (expected actual : Response) :
  let outcome := MatchesHTTPResponse Unmarshal expected actual in
  if reaches_bodies expected actual
  then snd outcome = (snd (ReadAll (Body expected)), snd (ReadAll (Body actual)))
       ∧ reads (fst (snd outcome)) = S (reads (Body expected))
       ∧ reads (snd (snd outcome)) = S (reads (Body actual))
       ∧ remaining (fst (snd outcome)) = EmptyString
       ∧ remaining (snd (snd outcome)) = EmptyString
  else snd outcome = (Body expected, Body actual) ∧ fst outcome ≠ Ok true.
Proof.
  unfold MatchesHTTPResponse, reaches_bodies.
  destruct (Z.eqb (StatusCode expected) (StatusCode actual)); simpl;
    [| split; [reflexivity | discriminate]].
  destruct (Matches _ _) as [[|] |]; simpl;
    [| split; [reflexivity | discriminate] | split; [reflexivity | discriminate]].
  repeat split.
Qed.

(** With different status codes the call returns false and leaves both
    bodies unread. *)
Lemma status_mismatch_leaves_bodies_unread :
  let expected := response 200 "hello" None in
  let actual := response 404 "hello" None in
  let outcome := MatchesHTTPResponse sample_Unmarshal expected actual in
  fst outcome = Ok false
  ∧ reads (fst (snd outcome)) = 0 ∧ reads (snd (snd outcome)) = 0
  ∧ remaining (fst (snd outcome)) = "hello" ∧ remaining (snd (snd outcome)) = "hello".
Proof. repeat split. Qed.

(** The body comparison, once both bodies are read and the trailers match:
    raw bytes when expected is not JSON, false when only actual is not JSON,
    and [Matches] on the decoded values otherwise. *)
Lemma body_comparison (Unmarshal : string → option iface)
    (expected actual : Response) (expBody actBody : string) :
  Matches (Some (header_val (Trailer expected))) (Some (header_val (Trailer actual)))
    = Ok true →
  matchesRead Unmarshal expected actual expBody actBody
  = match Unmarshal expBody, Unmarshal actBody with
    | None, _ => Ok (String.eqb expBody actBody)
    | Some _, None => Ok false
    | Some exp, Some act => Matches exp act
    end.
Proof.
  intros Htrailer. unfold matchesRead. rewrite Htrailer. simpl.
  destruct (Unmarshal expBody), (Unmarshal actBody); reflexivity.
Qed.

(** C5, the code at the specification's examples.  With the bodies [{"a":[1,2]}]
    and [{"a":[2,1]}], decoded as [json.Unmarshal] decodes them, the call
    panics: the elements under [a] are of interface type, so they are
    compared with [==], and both hold a slice.  The raw body [hello], which
    is not JSON, matches [hello] and does not match [hullo]. *)
Theorem nested_json_array_panics (Unmarshal : string → option iface) :
  Unmarshal text_a12
    = Some (Some (json_object [("a", json_array [json_number 1; json_number 2])])) →
  Unmarshal text_a21
    = Some (Some (json_object [("a", json_array [json_number 2; json_number 1])])) →
  Unmarshal "hello" = None →
  fst (MatchesHTTPResponse Unmarshal
         (response 200 text_a12 None) (response 200 text_a21 None))
    = Panic (Uncomparable "[]interface {}")
  ∧ fst (MatchesHTTPResponse Unmarshal
           (response 200 text_a12 None) (response 200 text_a12 None))
    = Panic (Uncomparable "[]interface {}")
  ∧ fst (MatchesHTTPResponse Unmarshal
           (response 200 "hello" None) (response 200 "hello" None))
    = Ok true
  ∧ fst (MatchesHTTPResponse Unmarshal
           (response 200 "hello" None) (response 200 "hullo" None))
    = Ok false.
Proof.
  intros H12 H21 Hraw.
  unfold MatchesHTTPResponse, matchesRead, response; simpl.
  rewrite H12, H21, Hraw. repeat split.
Qed.

Lemma nested_json_array_panics_witness :
  fst (MatchesHTTPResponse sample_Unmarshal
         (response 200 text_a12 None) (response 200 text_a21 None))
    = Panic (Uncomparable "[]interface {}")
  ∧ fst (MatchesHTTPResponse sample_Unmarshal
           (response 200 "hello" None) (response 200 "hullo" None))
    = Ok false.
Proof.
  destruct (nested_json_array_panics sample_Unmarshal eq_refl eq_refl eq_refl)
    as (H1 & _ & _ & H4).
  split; assumption.
Defined.

(** * Further properties of the matcher *)

(** ** A true verdict on sequences pairs the elements off *)

Lemma consume_first_sound (m : gval → gval → result bool) e us rest :
  consume_first m e us = Ok (Some rest) →
  ∃ a, m e a = Ok true ∧ Permutation us (a :: rest).
Proof.
  revert rest. induction us as [| u us IH]; intros rest; simpl; [discriminate |].
  destruct (m e u) as [[|] |] eqn:Hu; simpl; try discriminate.
  - intros [= <-]. exists u. split; [exact Hu | reflexivity].
  - destruct (consume_first m e us) as [[left |] |]; simpl; try discriminate.
    intros [= <-]. destruct (IH left eq_refl) as (a & Ha & Hperm).
    exists a. split; [exact Ha |].
    rewrite Hperm. apply perm_swap.
Qed.

Lemma multiset_match_sound (m : gval → gval → result bool) es us :
  multiset_match m es us = Ok true →
  ∃ picked left, Permutation us (picked ++ left)
                 ∧ Forall2 (fun e a => m e a = Ok true) es picked.
Proof.
  revert us. induction es as [| e es IH]; intros us; simpl.
  - intros _. exists [], us. split; [reflexivity | constructor].
  - destruct (consume_first m e us) as [[rest |] |] eqn:Hfirst; simpl; try discriminate.
    intros Hrest. destruct (consume_first_sound m e us rest Hfirst) as (a & Ha & Hperm).
    destruct (IH rest Hrest) as (picked & left & Hperm' & Hall).
    exists (a :: picked), left. split; [| constructor; assumption].
    rewrite Hperm, Hperm'. reflexivity.
Qed.

(** X1. When two slices, or two arrays, match, the elements of actual can
    be put in an order in which each matches the element of expected at the
    same index. *)
Theorem unordered_match_pairs_elements (t : type) (expected actual : list gval) :
  Matches (Some (GSlice t expected)) (Some (GSlice t actual)) = Ok true
  ∨ Matches (Some (GArray t expected)) (Some (GArray t actual)) = Ok true →
  ∃ reordered, Permutation actual reordered
               ∧ Forall2 (fun e a => Matches (Some e) (Some a) = Ok true)
                         expected reordered.
Proof.
  intros H.
  assert (Hlen : length expected = length actual
                 ∧ multiset_match (fun e a => matchesValid e (Val a)) expected actual
                   = Ok true).
  { unfold Matches in H. simpl in H. rewrite !type_eqb_refl, andb_true_r in H.
    simpl in H.
    destruct (Nat.eqb (length expected) (length actual)) eqn:Hn; simpl in H;
      [| destruct H; discriminate].
    apply Nat.eqb_eq in Hn. split; [exact Hn |].
    destruct H as [H | H]; revert H; to_multiset_match; auto. }
  destruct Hlen as [Hlen Hmatch].
  destruct (multiset_match_sound _ _ _ Hmatch) as (picked & left & Hperm & Hall).
  assert (left = []) as ->.
  { apply Permutation_length in Hperm. apply Forall2_length in Hall.
    rewrite length_app in Hperm. destruct left; [reflexivity | simpl in Hperm; lia]. }
  rewrite app_nil_r in Hperm. exists picked. split; [exact Hperm | exact Hall].
Qed.

Lemma unordered_match_pairs_elements_witness :
  ∃ reordered, Permutation (map GInt [3; 1; 2]%Z) reordered
               ∧ Forall2 (fun e a => Matches (Some e) (Some a) = Ok true)
                         (map GInt [1; 2; 3]%Z) reordered.
Proof.
  apply (unordered_match_pairs_elements TInt (map GInt [1; 2; 3]%Z) (map GInt [3; 1; 2]%Z)).
  left. reflexivity.
Defined.

(** ** Sequences of scalars match exactly when they are permutations *)

Section ScalarSequences.

Context {A : Type}.
Variable inj : A → gval.
Variable eqb : A → A → bool.
Variable m : gval → gval → result bool.
Hypothesis eqb_eq : ∀ x y, eqb x y = true ↔ x = y.
Hypothesis m_eqb : ∀ x y, m (inj x) (inj y) = Ok (eqb x y).

Lemma consume_first_scalar x ys :
  consume_first m (inj x) (map inj ys)
  = Ok (option_map (map inj) (remove_first eqb x ys)).
Proof.
  induction ys as [| y ys IH]; simpl; [reflexivity |].
  rewrite m_eqb. simpl. destruct (eqb x y); [reflexivity |].
  rewrite IH. simpl. destruct (remove_first eqb x ys); reflexivity.
Qed.

Lemma multiset_match_scalar xs ys :
  multiset_match m (map inj xs) (map inj ys) = Ok (contained eqb xs ys).
Proof.
  revert ys. induction xs as [| x xs IH]; intros ys; simpl; [reflexivity |].
  rewrite consume_first_scalar. simpl.
  destruct (remove_first eqb x ys) as [rest |]; simpl; [apply IH | reflexivity].
Qed.

Lemma remove_first_Some x ys rest :
  remove_first eqb x ys = Some rest → Permutation ys (x :: rest).
Proof.
  revert rest. induction ys as [| y ys IH]; intros rest; simpl; [discriminate |].
  destruct (eqb x y) eqn:Hxy.
  - apply eqb_eq in Hxy as ->. intros [= ->]. reflexivity.
  - destruct (remove_first eqb x ys) as [r |]; simpl; [| discriminate].
    intros [= <-]. rewrite (IH r eq_refl). apply perm_swap.
Qed.

Lemma remove_first_None x ys : remove_first eqb x ys = None → x ∉ ys.
Proof.
  induction ys as [| y ys IH]; simpl; intros H Hin; [inversion Hin |].
  destruct (eqb x y) eqn:Hxy; [discriminate |].
  destruct (remove_first eqb x ys); [discriminate |].
  apply elem_of_cons in Hin as [-> | Hin]; [| exact (IH eq_refl Hin)].
  rewrite (proj2 (eqb_eq y y) eq_refl) in Hxy. discriminate.
Qed.

Lemma contained_Permutation xs ys :
  length xs = length ys → (contained eqb xs ys = true ↔ Permutation xs ys).
Proof.
  revert ys. induction xs as [| x xs IH]; intros ys Hlen; simpl.
  - destruct ys; [| discriminate]. split; auto.
  - destruct (remove_first eqb x ys) as [rest |] eqn:Hrest.
    + pose proof (remove_first_Some _ _ _ Hrest) as Hperm.
      assert (length xs = length rest) as Hlen'.
      { apply Permutation_length in Hperm. simpl in *. lia. }
      rewrite (IH rest Hlen'). split; intros H.
      * rewrite Hperm. constructor. exact H.
      * rewrite Hperm in H. apply (Permutation_cons_inv H).
    + split; [discriminate |]. intros H. exfalso.
      apply (remove_first_None _ _ Hrest).
      rewrite <- H. left.
Qed.

End ScalarSequences.

(** X2. Two slices of ints match exactly when one is a permutation of the
    other, and comparing them never panics. *)
Theorem int_slices_match_iff_permutation (xs ys : list Z) :
  (∃ b, Matches (Some (ints xs)) (Some (ints ys)) = Ok b)
  ∧ (Matches (Some (ints xs)) (Some (ints ys)) = Ok true ↔ Permutation xs ys).
Proof.
  assert (Heq : Matches (Some (ints xs)) (Some (ints ys))
                = Ok (Nat.eqb (length xs) (length ys) && contained Z.eqb xs ys)).
  { unfold Matches, ints. simpl. rewrite !length_map.
    destruct (Nat.eqb (length xs) (length ys)) eqn:Hn; simpl; [| reflexivity].
    apply Nat.eqb_eq in Hn. rewrite <- (length_map GInt ys).
    to_multiset_match.
    apply (multiset_match_scalar GInt Z.eqb). intros x y. simpl. reflexivity. }
  rewrite Heq. split; [eexists; reflexivity |].
  destruct (Nat.eqb (length xs) (length ys)) eqn:Hn; simpl.
  - apply Nat.eqb_eq in Hn.
    rewrite <- (contained_Permutation Z.eqb Z.eqb_eq xs ys Hn).
    split; congruence.
  - apply Nat.eqb_neq in Hn. split; [discriminate |].
    intros H. apply Permutation_length in H. contradiction.
Qed.

(** ** Maps *)

Lemma each_key_true k t kvs' kvs :
  each_key matchesValid (Val (GMap k t kvs')) kvs = Ok true
  ↔ Forall (fun kv => ∃ y, lookup_key (fst kv) kvs' = Some y
                           ∧ matchesValid (snd kv) (Val y) = Ok true) kvs.
Proof.
  induction kvs as [| [key x] kvs IH]; simpl.
  - split; [constructor | reflexivity].
  - rewrite Forall_cons. simpl. rewrite <- IH. clear IH.
    destruct (lookup_key key kvs') as [y |] eqn:Hy; simpl.
    + destruct (matchesValid x (Val y)) as [[|] |] eqn:Hxy; simpl.
      * split; [intros H; split; [exists y; auto | exact H] | intros [_ H]; exact H].
      * split; [discriminate | intros [(y' & [= <-] & Hy') _]; congruence].
      * split; [discriminate | intros [(y' & [= <-] & Hy') _]; congruence].
    + rewrite matchesValid_invalid. simpl.
      split; [discriminate | intros [(y' & Hy' & _) _]; discriminate].
Qed.

(** X3. Two maps of one type match exactly when every entry of expected has
    an entry under the same key in actual whose value matches; the entries
    of actual under other keys play no part. *)
Theorem maps_match_iff_expected_entries_match (k t : type)
    (expected actual : list (mapkey * gval)) :
  Matches (Some (GMap k t expected)) (Some (GMap k t actual)) = Ok true
  ↔ Forall (fun kv => ∃ y, lookup_key (fst kv) actual = Some y
                           ∧ Matches (Some (snd kv)) (Some y) = Ok true) expected.
Proof.
  unfold Matches. simpl. rewrite !type_eqb_refl. simpl.
  apply each_key_true.
Qed.

(** X4. When the entries of expected that come before a key all match and
    actual has no entry under that key, the comparison panics: it does not
    return false. *)
Theorem first_missing_key_panics (k t : type)
    (before after actual : list (mapkey * gval)) (key : mapkey) (x : gval) :
  Forall (fun kv => ∃ y, lookup_key (fst kv) actual = Some y
                         ∧ Matches (Some (snd kv)) (Some y) = Ok true) before →
  lookup_key key actual = None →
  Matches (Some (GMap k t (before ++ (key, x) :: after))) (Some (GMap k t actual))
  = Panic (ValueError "reflect.Value.Type").
Proof.
  intros Hbefore Hmissing. unfold Matches. simpl. rewrite !type_eqb_refl. simpl.
  induction Hbefore as [| [key' x'] before (y & Hy & Hxy) _ IH]; simpl.
  - rewrite Hmissing. simpl. rewrite matchesValid_invalid. reflexivity.
  - simpl in Hy, Hxy. rewrite Hy. simpl.
    unfold Matches in Hxy. simpl in Hxy. rewrite Hxy. simpl. exact IH.
Qed.

Lemma first_missing_key_panics_witness :
  Matches (Some (int_map [("a", 1); ("b", 2); ("c", 3)]%Z)) (Some (int_map [("a", 1)]%Z))
  = Panic (ValueError "reflect.Value.Type").
Proof.
  apply (first_missing_key_panics TString TInt [(KeyString "a", GInt 1)]
           [(KeyString "c", GInt 3)] [(KeyString "a", GInt 1)]
           (KeyString "b") (GInt 2)).
  - constructor; [| constructor]. exists (GInt 1). split; reflexivity.
  - reflexivity.
Defined.

Lemma extra_keys_are_ignored_witness :
  matchesValues (Val (int_map [("a", 1)]%Z)) (Val (int_map [("a", 1)]%Z))
  = matchesValues (Val (int_map [("a", 1)]%Z)) (Val (int_map [("b", 2); ("a", 1)]%Z)).
Proof.
  apply (extra_keys_are_ignored TString TInt [(KeyString "a", GInt 1)]
           [(KeyString "a", GInt 1)] [(KeyString "b", GInt 2); (KeyString "a", GInt 1)]).
  intros key x Hin. apply elem_of_cons in Hin as [[= -> ->] | Hin];
    [reflexivity | inversion Hin].
Defined.

(** ** Structs *)

(** X6. Two structs of one type match exactly when each exported field of
    expected matches the field of actual at the same position. *)
Theorem structs_match_iff_exported_fields_match (n : string)
    (expected actual : list (StructField * gval)) :
  typeOf (GStruct n expected) = typeOf (GStruct n actual) →
  (Matches (Some (GStruct n expected)) (Some (GStruct n actual)) = Ok true
   ↔ Forall2 (fun p q => exported (fst p) = true →
                         Matches (Some (snd p)) (Some (snd q)) = Ok true)
             expected actual).
Proof.
  intros Htype. unfold Matches. cbn [ValueOf matchesValues].
  cbn [matchesValid Type_ mbind result_bind]. rewrite <- Htype, type_eqb_refl. cbn [negb].
  simpl in Htype. injection Htype as Htype.
  assert (Hlen : length expected = length actual).
  { apply (f_equal length) in Htype. rewrite !length_map in Htype. exact Htype. }
  clear Htype.
  assert (Hgen : ∀ fs i, length fs = length (drop i actual) →
            (each_field matchesValid (Val (GStruct n actual)) fs i = Ok true
             ↔ Forall2 (fun p q => exported (fst p) = true →
                                   matchesValid (snd p) (Val (snd q)) = Ok true)
                       fs (drop i actual))).
  { induction fs as [| [f x] fs IH]; intros i Hi.
    - destruct (drop i actual); [| discriminate]. split; [constructor | reflexivity].
    - destruct (drop i actual) as [| [g y] rest] eqn:Hdrop; [discriminate |].
      assert (Hnext : drop (S i) actual = rest).
      { rewrite <- (Nat.add_1_r i), <- drop_drop, Hdrop. reflexivity. }
      assert (Hi' : actual !! i = Some (g, y)).
      { rewrite <- (Nat.add_0_r i), <- lookup_drop, Hdrop. reflexivity. }
      simpl in Hi. injection Hi as Hi. rewrite <- Hnext in Hi.
      specialize (IH (S i) Hi). rewrite Hnext in IH.
      rewrite Forall2_cons. simpl. fold (exported f).
      destruct (exported f); simpl.
      + rewrite Hi'. simpl.
        destruct (matchesValid x (Val y)) as [[|] |]; simpl.
        * rewrite IH. split; [intros H; split; auto | intros [_ H]; exact H].
        * split; [discriminate | intros [H _]; discriminate (H eq_refl)].
        * split; [discriminate | intros [H _]; discriminate (H eq_refl)].
      + rewrite IH. split; [intros H; split; [discriminate | exact H] | intros [_ H]; exact H]. }
  specialize (Hgen expected 0). rewrite drop_0 in Hgen. apply Hgen, Hlen.
Qed.

Lemma structs_match_iff_exported_fields_match_witness :
  typeOf (GStruct "pkg.T" (T_val 1 "x")) = typeOf (GStruct "pkg.T" (T_val 1 "y"))
  ∧ Matches (Some (GStruct "pkg.T" (T_val 1 "x"))) (Some (GStruct "pkg.T" (T_val 1 "y")))
    = Ok true.
Proof.
  split; [reflexivity |].
  apply (structs_match_iff_exported_fields_match "pkg.T" (T_val 1 "x") (T_val 1 "y") eq_refl).
  repeat constructor; simpl; intros; try discriminate; reflexivity.
Defined.

(** ** Where the matcher cannot panic *)

Lemma valEq_safe u :
  eq_safe u = true → well_formed u = true →
  ∀ v, well_formed v = true → typeOf u = typeOf v → ∃ b, valEq u v = Ok b.
Proof.
  induction u as [b | z | f | s | s c | t | | t a x IH | t vs IH | t vs IH
                 | n fs IH | k t kvs IH | x IH] using gval_nested_ind;
    intros Hsafe Hu v Hv Htype; simpl in Hsafe; try discriminate;
    destruct v; simpl in Htype; try discriminate;
    try (simpl; eexists; reflexivity).
  - (* an interface holding nothing *)
    destruct dyn; simpl; eexists; reflexivity.
  - (* arrays *)
    injection Htype as Hlen ->. simpl in Hu, Hv. simpl.
    revert items Hlen Hv. induction IH as [| x vs Hx _ IHvs]; intros [| y ws] Hlen Hv;
      simpl in *; try discriminate; try (eexists; reflexivity).
    apply andb_true_iff in Hsafe as [Hsx Hsafe].
    apply andb_true_iff in Hu as [Hux Hu]. apply andb_true_iff in Hux as [Htx Hux].
    apply andb_true_iff in Hv as [Hvy Hv]. apply andb_true_iff in Hvy as [Hty Hvy].
    apply type_eqb_eq in Htx, Hty.
    destruct (Hx Hsx Hux y Hvy) as [[|] ->]; [congruence | | eexists; reflexivity].
    simpl. apply IHvs; auto.
  - (* structs *)
    injection Htype as _ Hfields. simpl in Hu, Hv. simpl.
    revert fields Hfields Hv. induction IH as [| [f x] fs Hx _ IHfs];
      intros [| [g y] gs] Hfields Hv; simpl in *; try discriminate;
      try (eexists; reflexivity).
    injection Hfields as _ Hxy Hfields.
    apply andb_true_iff in Hsafe as [Hsx Hsafe].
    apply andb_true_iff in Hu as [Hux Hu]. apply andb_true_iff in Hv as [Hvy Hv].
    destruct (String.eqb (Name f) "_"); [apply IHfs; auto |].
    destruct (Hx Hsx Hux y Hvy Hxy) as [[|] ->]; [| eexists; reflexivity].
    simpl. apply IHfs; auto.
  - (* an interface holding a value *)
    destruct dyn as [y |]; simpl; [| eexists; reflexivity].
    apply andb_true_iff in Hsafe as [Hc Hsafe].
    simpl in Hu, Hv. apply andb_true_iff in Hu as [_ Hu]. apply andb_true_iff in Hv as [_ Hv].
    destruct (type_eqb (typeOf x) (typeOf y)) eqn:Ht; simpl; [| eexists; reflexivity].
    rewrite Hc. simpl. apply type_eqb_eq in Ht. apply IH; assumption.
Qed.

Lemma consume_first_safe (m : gval → gval → result bool) (Q : gval → Prop) e us :
  (∀ a, Q a → ∃ b, m e a = Ok b) → Forall Q us →
  ∃ r, consume_first m e us = Ok r ∧ ∀ rest, r = Some rest → Forall Q rest.
Proof.
  intros Hm Hus. induction Hus as [| u us Hu Hus IH]; simpl.
  - exists None. split; [reflexivity | discriminate].
  - destruct (Hm u Hu) as [[|] ->]; simpl.
    + exists (Some us). split; [reflexivity |]. intros rest [= <-]. exact Hus.
    + destruct IH as (r & -> & Hr). simpl. eexists. split; [reflexivity |].
      intros rest Hrest. destruct r as [r |]; [| discriminate].
      injection Hrest as <-. constructor; [exact Hu | apply Hr; reflexivity].
Qed.

Lemma multiset_match_safe (m : gval → gval → result bool) (Q : gval → Prop) es :
  Forall (fun e => ∀ a, Q a → ∃ b, m e a = Ok b) es →
  ∀ us, Forall Q us → ∃ b, multiset_match m es us = Ok b.
Proof.
  induction 1 as [| e es He _ IH]; intros us Hus; simpl; [eexists; reflexivity |].
  destruct (consume_first_safe m Q e us He Hus) as (r & -> & Hr). simpl.
  destruct r as [rest |]; [apply IH, Hr; reflexivity | eexists; reflexivity].
Qed.

Lemma each_field_safe (m : gval → Value → result bool) (Q : gval → Prop) n actual :
  Forall (fun q => Q (snd q)) actual →
  ∀ fs i, length fs = length (drop i actual) →
    Forall (fun p => exported (fst p) = true →
                     ∀ a, Q a → ∃ b, m (snd p) (Val a) = Ok b) fs →
    ∃ b, each_field m (Val (GStruct n actual)) fs i = Ok b.
Proof.
  intros Hactual fs i Hlen Hfs. revert i Hlen.
  induction Hfs as [| [f x] fs Hx _ IH]; intros i Hlen; simpl; [eexists; reflexivity |].
  destruct (drop i actual) as [| [g y] rest] eqn:Hdrop; [discriminate |].
  assert (Hnext : drop (S i) actual = rest).
  { rewrite <- (Nat.add_1_r i), <- drop_drop, Hdrop. reflexivity. }
  assert (Hi : actual !! i = Some (g, y)).
  { rewrite <- (Nat.add_0_r i), <- lookup_drop, Hdrop. reflexivity. }
  simpl in Hlen. injection Hlen as Hlen. rewrite <- Hnext in Hlen.
  simpl in Hx. fold (exported f).
  destruct (exported f) eqn:Hexp; simpl; [| apply IH, Hlen].
  rewrite Hi. simpl.
  assert (Hy : Q y).
  { apply (proj1 (Forall_forall _ _) Hactual (g, y)).
    apply list_elem_of_lookup. exists i. exact Hi. }
  destruct (Hx eq_refl y Hy) as [[|] ->]; simpl; [apply IH, Hlen | eexists; reflexivity].
Qed.

(** X7. On an expected value in which the matcher reaches no map, no
    function and no interface holding an uncomparable value, [Matches]
    returns a boolean for every non-nil actual value: it cannot panic. *)
Theorem Matches_returns_on_safe_values (e a : gval) :
  match_safe e = true → well_formed e = true → well_formed a = true →
  ∃ b, Matches (Some e) (Some a) = Ok b.
Proof.
  intros Hsafe He Ha. change (∃ b, matchesValid e (Val a) = Ok b).
  revert a Ha Hsafe He.
  induction e as [b | z | f | s | s c | t | | t addr x IH | t vs IH | t vs IH
                 | n fs IH | k t kvs IH | x IH] using gval_nested_ind;
    intros a Ha Hsafe He; simpl in Hsafe; try discriminate;
    cbn [matchesValid Type_ mbind result_bind];
    (destruct (type_eqb _ (typeOf a)) eqn:Ht; cbn [negb]; [| eexists; reflexivity]);
    apply type_eqb_eq in Ht; destruct a; simpl in Ht; try discriminate;
    try (simpl; eexists; reflexivity).
  - (* an interface holding nothing *)
    destruct dyn; simpl; eexists; reflexivity.
  - (* pointers *)
    destruct target as [[addr' y] |]; simpl; [| eexists; reflexivity].
    simpl in He, Ha. apply andb_true_iff in He as [_ He].
    apply andb_true_iff in Ha as [_ Ha]. apply IH; assumption.
  - (* arrays *)
    injection Ht as Hlen ->. simpl. rewrite Hlen, Nat.eqb_refl. simpl.
    to_multiset_match.
    apply (multiset_match_safe _ (fun a => well_formed a = true)).
    + simpl in He. apply Forall_forall. intros x Hx y Hy.
      pose proof (proj1 (forallb_forall _ _) He x (proj1 (list_elem_of_In _ _) Hx)) as Hwx.
      apply andb_true_iff in Hwx as [_ Hwx].
      apply (proj1 (Forall_forall _ _) IH x Hx y Hy); [| exact Hwx].
      apply (proj1 (forallb_forall _ _) Hsafe x), list_elem_of_In, Hx.
    + simpl in Ha. apply Forall_forall. intros y Hy.
      pose proof (proj1 (forallb_forall _ _) Ha y (proj1 (list_elem_of_In _ _) Hy)) as Hwy.
      apply andb_true_iff in Hwy as [_ Hwy]. exact Hwy.
  - (* slices *)
    simpl. destruct (Nat.eqb (length vs) (length items)); simpl; [| eexists; reflexivity].
    to_multiset_match.
    apply (multiset_match_safe _ (fun a => well_formed a = true)).
    + simpl in He. apply Forall_forall. intros x Hx y Hy.
      pose proof (proj1 (forallb_forall _ _) He x (proj1 (list_elem_of_In _ _) Hx)) as Hwx.
      apply andb_true_iff in Hwx as [_ Hwx].
      apply (proj1 (Forall_forall _ _) IH x Hx y Hy); [| exact Hwx].
      apply (proj1 (forallb_forall _ _) Hsafe x), list_elem_of_In, Hx.
    + simpl in Ha. apply Forall_forall. intros y Hy.
      pose proof (proj1 (forallb_forall _ _) Ha y (proj1 (list_elem_of_In _ _) Hy)) as Hwy.
      apply andb_true_iff in Hwy as [_ Hwy]. exact Hwy.
  - (* structs *)
    injection Ht as _ Hfields.
    apply (each_field_safe _ (fun a => well_formed a = true)).
    + simpl in Ha. apply Forall_forall. intros q Hq.
      apply (proj1 (forallb_forall _ _) Ha q), list_elem_of_In, Hq.
    + rewrite drop_0. apply (f_equal length) in Hfields.
      rewrite !length_map in Hfields. exact Hfields.
    + simpl in He. apply Forall_forall. intros p Hp Hexp y Hy.
      apply (proj1 (Forall_forall _ _) IH p Hp y Hy).
      * pose proof (proj1 (forallb_forall _ _) Hsafe p (proj1 (list_elem_of_In _ _) Hp)) as Hsp.
        simpl in Hsp. destruct (exported (fst p)); [exact Hsp | discriminate].
      * apply (proj1 (forallb_forall _ _) He p), list_elem_of_In, Hp.
  - (* an interface holding a value *)
    destruct dyn as [y |]; simpl; [| eexists; reflexivity].
    apply andb_true_iff in Hsafe as [Hc Hsafe].
    simpl in He, Ha. apply andb_true_iff in He as [_ He]. apply andb_true_iff in Ha as [_ Ha].
    destruct (type_eqb (typeOf x) (typeOf y)) eqn:Ht'; simpl; [| eexists; reflexivity].
    rewrite Hc. simpl. apply type_eqb_eq in Ht'. apply valEq_safe; assumption.
Qed.

Lemma Matches_returns_on_safe_values_witness :
  ∃ b, Matches (Some (GSlice TInterface [GIface (Some (GInt 1)); GIface (Some (GString "a"))]))
               (Some (GSlice TInterface [GIface (Some (json_array [])); GIface None]))
       = Ok b.
Proof.
  apply Matches_returns_on_safe_values; reflexivity.
Defined.

(** ** Nil arguments *)

(** X11. [Matches] panics whenever one of its arguments is the nil
    interface, whatever the other one is. *)
Theorem nil_argument_panics (other : iface) :
  Matches None other = Panic (ValueError "reflect.Value.Type")
  ∧ Matches other None = Panic (ValueError "reflect.Value.Type").
Proof.
  split; [reflexivity |].
  destruct other as [v |]; [| reflexivity].
  unfold Matches. simpl. apply matchesValid_invalid.
Qed.

(** ** Values of interface type *)

(** X14. Two maps that hold, under the key visited first, values of one
    uncomparable type in an element of interface type (two decoded JSON
    arrays, two decoded JSON objects) make the comparison panic, whatever
    these values are. *)
Theorem uncomparable_elements_panic (key : string) (x y : gval)
    (others others' : list (string * gval)) :
  typeOf x = typeOf y → comparable (typeOf x) = false →
  Matches (Some (json_object ((key, x) :: others)))
          (Some (json_object ((key, y) :: others')))
  = Panic (Uncomparable (type_name (typeOf x))).
Proof.
  intros Htype Hc. unfold Matches, json_object. simpl.
  rewrite String.eqb_refl. simpl.
  rewrite <- Htype, type_eqb_refl, Hc. reflexivity.
Qed.

Lemma uncomparable_elements_panic_witness :
  Matches (Some (json_object [("a", json_object [("b", json_number 1)])]))
          (Some (json_object [("a", json_object [("b", json_number 1)])]))
  = Panic (Uncomparable "map[string]interface {}").
Proof.
  apply (uncomparable_elements_panic "a" (json_object [("b", json_number 1)])
           (json_object [("b", json_number 1)]) [] []); reflexivity.
Defined.

(** ** Headers *)

Lemma string_slices_match (xs ys : list string) :
  matchesValid (strings xs) (Val (strings ys)) = Ok true ↔ Permutation xs ys.
Proof.
  assert (Heq : matchesValid (strings xs) (Val (strings ys))
                = Ok (Nat.eqb (length xs) (length ys) && contained String.eqb xs ys)).
  { unfold strings. simpl. rewrite !length_map.
    destruct (Nat.eqb (length xs) (length ys)) eqn:Hn; simpl; [| reflexivity].
    apply Nat.eqb_eq in Hn. rewrite <- (length_map GString ys).
    to_multiset_match.
    apply (multiset_match_scalar GString String.eqb). intros x y. simpl. reflexivity. }
  rewrite Heq.
  destruct (Nat.eqb (length xs) (length ys)) eqn:Hn; simpl.
  - apply Nat.eqb_eq in Hn.
    rewrite <- (contained_Permutation String.eqb String.eqb_eq xs ys Hn).
    split; congruence.
  - apply Nat.eqb_neq in Hn. split; [discriminate |].
    intros H. apply Permutation_length in H. contradiction.
Qed.

Lemma lookup_key_header name (h : HeaderMap) :
  lookup_key (KeyString name)
    (map (fun kv => (KeyString (fst kv), GSlice TString (map GString (snd kv)))) h)
  = option_map strings (lookup_header name h).
Proof.
  induction h as [| [n vs] h IH]; simpl; [reflexivity |].
  destruct (String.eqb name n); [reflexivity | exact IH].
Qed.

(** X8. Two headers match exactly when every name of expected is a name of
    actual with the same values up to their order; the other names of
    actual play no part. *)
Theorem headers_match_iff (expected actual : HeaderMap) :
  Matches (Some (header_val expected)) (Some (header_val actual)) = Ok true
  ↔ Forall (fun kv => ∃ vs, lookup_header (fst kv) actual = Some vs
                            ∧ Permutation (snd kv) vs) expected.
Proof.
  unfold Matches, header_val. simpl. rewrite each_key_true.
  rewrite Forall_map. apply Forall_iff. intros [name vs]. simpl.
  rewrite lookup_key_header. split.
  - intros (y & Hy & Hmatch). destruct (lookup_header name actual) as [vs' |];
      [| discriminate]. injection Hy as <-.
    exists vs'. split; [reflexivity | apply string_slices_match, Hmatch].
  - intros (vs' & -> & Hperm). exists (strings vs'). split; [reflexivity |].
    apply string_slices_match, Hperm.
Qed.

Lemma header_val_reflexive (h : HeaderMap) :
  NoDup (map fst h) → match_reflexive (header_val h) = true.
Proof.
  intros Hnd. unfold header_val. simpl. apply andb_true_iff. split.
  - induction h as [| [n vs] h IH]; simpl; [reflexivity |].
    apply NoDup_cons in Hnd as [Hn Hnd]. rewrite (IH Hnd), andb_true_r.
    apply negb_true_iff. apply not_true_is_false. intros Hex.
    apply existsb_exists in Hex as ([k v] & Hin & Hk).
    apply in_map_iff in Hin as ([n' vs'] & [= <- <-] & Hin). simpl in Hk.
    apply String.eqb_eq in Hk as <-. apply Hn. simpl.
    apply list_elem_of_In. apply in_map_iff. exists (n, vs'). split; [reflexivity | exact Hin].
  - clear Hnd. induction h as [| [n vs] h IH]; simpl; [reflexivity |].
    rewrite IH, andb_true_r. clear IH.
    induction vs as [| v vs IHvs]; simpl; [reflexivity | exact IHvs].
Qed.

Lemma header_matches_itself (h : HeaderMap) :
  NoDup (map fst h) → Matches (Some (header_val h)) (Some (header_val h)) = Ok true.
Proof.
  intros Hnd. apply matchesValid_refl, header_val_reflexive, Hnd.
Qed.

(** ** Responses *)

(** X13. When expected carries a header name that actual lacks, the
    comparison of the two responses never yields a match, and it ends
    before either body is read. *)
Theorem missing_header_never_matches (Unmarshal : string → option iface)
    (expected actual : Response) (name : string) (values : list string) :
  (name, values) ∈ Header expected →
  lookup_header name (Header actual) = None →
  fst (MatchesHTTPResponse Unmarshal expected actual) ≠ Ok true
  ∧ snd (MatchesHTTPResponse Unmarshal expected actual) = (Body expected, Body actual).
Proof.
  intros Hin Hmissing. unfold MatchesHTTPResponse.
  destruct (Z.eqb (StatusCode expected) (StatusCode actual)); simpl;
    [| split; [discriminate | reflexivity]].
  assert (Hne : Matches (Some (header_val (Header expected)))
                        (Some (header_val (Header actual))) ≠ Ok true).
  { unfold Matches, header_val. simpl.
    apply (each_key_missing _ _ _ _ (KeyString name) (strings values)).
    - apply list_elem_of_In, in_map_iff. exists (name, values).
      split; [reflexivity | apply list_elem_of_In, Hin].
    - rewrite lookup_key_header, Hmissing. reflexivity. }
  destruct (Matches _ _) as [[|] |]; simpl;
    [contradiction | split; [discriminate | reflexivity]
     | split; [discriminate | reflexivity]].
Qed.

Lemma missing_header_never_matches_witness :
  let expected := {| StatusCode := 200; Header := [("Etag", ["x"])];
                     Body := {| remaining := "hello"; ending := None; reads := 0 |};
                     Trailer := [] |} in
  let actual := response 200 "hello" None in
  fst (MatchesHTTPResponse sample_Unmarshal expected actual) ≠ Ok true
  ∧ snd (MatchesHTTPResponse sample_Unmarshal expected actual)
    = (Body expected, Body actual).
Proof.
  apply (missing_header_never_matches sample_Unmarshal
           {| StatusCode := 200; Header := [("Etag", ["x"])];
              Body := {| remaining := "hello"; ending := None; reads := 0 |};
              Trailer := [] |}
           (response 200 "hello" None) "Etag" ["x"]).
  - left.
  - reflexivity.
Defined.

(** X9. A match of two responses means that the status codes are equal,
    that the headers match and that both bodies were read to their end;
    and then either both reads succeeded and the trailers match, or both
    reads failed, with errors that are equal. *)
Theorem a_match_requires (Unmarshal : string → option iface)
    (expected actual : Response) :
  fst (MatchesHTTPResponse Unmarshal expected actual) = Ok true →
  StatusCode expected = StatusCode actual
  ∧ Matches (Some (header_val (Header expected))) (Some (header_val (Header actual)))
    = Ok true
  ∧ snd (MatchesHTTPResponse Unmarshal expected actual)
    = (snd (ReadAll (Body expected)), snd (ReadAll (Body actual)))
  ∧ (ending (Body expected) = None ∧ ending (Body actual) = None
     ∧ Matches (Some (header_val (Trailer expected)))
               (Some (header_val (Trailer actual))) = Ok true
     ∨ ending (Body expected) ≠ None ∧ ending (Body actual) ≠ None
       ∧ ifaceEq (ending (Body expected)) (ending (Body actual)) = Ok true).
Proof.
  unfold MatchesHTTPResponse.
  destruct (Z.eqb (StatusCode expected) (StatusCode actual)) eqn:Hstatus; simpl;
    [| discriminate].
  apply Z.eqb_eq in Hstatus.
  destruct (Matches (Some (header_val (Header expected))) _) as [[|] |]; simpl;
    try discriminate.
  destruct (ending (Body expected)) as [e |] eqn:He,
           (ending (Body actual)) as [a |] eqn:Ha; simpl; try discriminate.
  - intros H. split; [exact Hstatus |]. split; [reflexivity |]. split; [reflexivity |].
    right. split; [discriminate |]. split; [discriminate | exact H].
  - unfold matchesRead.
    destruct (Matches (Some (header_val (Trailer expected))) _) as [[|] |]; simpl;
      try discriminate.
    intros _. split; [exact Hstatus |]. split; [reflexivity |]. split; [reflexivity |].
    left. repeat split.
Qed.

Lemma a_match_requires_witness :
  StatusCode (response 200 "hello" None) = StatusCode (response 200 "hello" None)
  ∧ snd (MatchesHTTPResponse sample_Unmarshal (response 200 "hello" None)
           (response 200 "hello" None))
    = (snd (ReadAll (Body (response 200 "hello" None))),
       snd (ReadAll (Body (response 200 "hello" None)))).
Proof.
  destruct (a_match_requires sample_Unmarshal (response 200 "hello" None)
              (response 200 "hello" None) eq_refl) as (H1 & _ & H3 & _).
  split; assumption.
Defined.

(** X10. Two responses with equal status codes, the same headers and
    trailers, and the same body bytes match when the bodies are read
    without error and are not JSON. *)
Theorem equal_raw_responses_match (Unmarshal : string → option iface)
    (expected actual : Response) :
  StatusCode expected = StatusCode actual →
  Header actual = Header expected → NoDup (map fst (Header expected)) →
  Trailer actual = Trailer expected → NoDup (map fst (Trailer expected)) →
  ending (Body expected) = None → ending (Body actual) = None →
  remaining (Body actual) = remaining (Body expected) →
  Unmarshal (remaining (Body expected)) = None →
  fst (MatchesHTTPResponse Unmarshal expected actual) = Ok true.
Proof.
  intros Hstatus Hh Hhd Ht Htd Hee Hea Hbytes Hraw.
  unfold MatchesHTTPResponse, matchesRead.
  rewrite Hstatus, Z.eqb_refl, Hh, Ht. simpl.
  rewrite (header_matches_itself _ Hhd), Hee, Hea. simpl.
  rewrite (header_matches_itself _ Htd). simpl.
  rewrite Hraw, Hbytes, String.eqb_refl. reflexivity.
Qed.

Lemma equal_raw_responses_match_witness :
  fst (MatchesHTTPResponse sample_Unmarshal
         {| StatusCode := 200; Header := [("Etag", ["x"; "y"])];
            Body := {| remaining := "hello"; ending := None; reads := 0 |};
            Trailer := [] |}
         {| StatusCode := 200; Header := [("Etag", ["x"; "y"])];
            Body := {| remaining := "hello"; ending := None; reads := 0 |};
            Trailer := [] |}) = Ok true.
Proof.
  apply equal_raw_responses_match; try reflexivity; simpl.
  - apply NoDup_singleton.
  - apply NoDup_nil_2.
Defined.

(** X12. When one of the two bodies is the JSON document [null] and the
    other is JSON too, the comparison of the responses panics: the decoded
    nil reaches [Matches]. *)
Theorem null_body_panics (Unmarshal : string → option iface)
    (expected actual : Response) (exp act : iface) :
  StatusCode expected = StatusCode actual →
  Matches (Some (header_val (Header expected))) (Some (header_val (Header actual)))
    = Ok true →
  ending (Body expected) = None → ending (Body actual) = None →
  Matches (Some (header_val (Trailer expected))) (Some (header_val (Trailer actual)))
    = Ok true →
  Unmarshal (remaining (Body expected)) = Some exp →
  Unmarshal (remaining (Body actual)) = Some act →
  exp = None ∨ act = None →
  fst (MatchesHTTPResponse Unmarshal expected actual)
  = Panic (ValueError "reflect.Value.Type").
Proof.
  intros Hstatus Hheader Hee Hea Htrailer Hexp Hact Hnil.
  unfold MatchesHTTPResponse, matchesRead.
  rewrite Hstatus, Z.eqb_refl, Hheader. simpl.
  rewrite Hee, Hea. simpl. rewrite Htrailer. simpl. rewrite Hexp, Hact.
  destruct Hnil as [-> | ->]; [reflexivity |].
  destruct exp as [v |]; [| reflexivity].
  unfold Matches. simpl. apply matchesValid_invalid.
Qed.

Lemma null_body_panics_witness :
  fst (MatchesHTTPResponse sample_Unmarshal
         (response 200 "null" None) (response 200 "null" None))
  = Panic (ValueError "reflect.Value.Type").
Proof.
  apply (null_body_panics sample_Unmarshal (response 200 "null" None)
           (response 200 "null" None) None None); try reflexivity.
  left. reflexivity.
Defined.

(** ** The first fit is not always the right fit *)

Lemma slices_as_multisets t es items :
  matchesValid (GSlice t es) (Val (GSlice t items))
  = if negb (Nat.eqb (length es) (length items)) then Ok false
    else multiset_match (fun e a => matchesValid e (Val a)) es items.
Proof.
  simpl. rewrite type_eqb_refl. simpl.
  destruct (Nat.eqb (length es) (length items)); simpl; [| reflexivity].
  to_multiset_match. reflexivity.
Qed.

(** X15. The verdict on two slices can depend on the order of actual.  With
    the maps [{a:v}] and [{a:v, b:w}] expected, the first takes the first
    element of actual that has [a:v]; when that is [{a:v, b:w}] and the
    element left is [{a:v, b:w'}], the second map of expected finds no
    match, although the elements can be paired off in the other order. *)
Theorem first_fit_depends_on_order (v w w' : Z) :
  w ≠ w' →
  let expected := GSlice (TMap TString TInt)
                    [int_map [("a", v)]; int_map [("a", v); ("b", w)]] in
  Matches (Some expected)
          (Some (GSlice (TMap TString TInt)
                   [int_map [("a", v); ("b", w)]; int_map [("a", v); ("b", w')]]))
    = Ok false
  ∧ Matches (Some expected)
            (Some (GSlice (TMap TString TInt)
                     [int_map [("a", v); ("b", w')]; int_map [("a", v); ("b", w)]]))
    = Ok true.
Proof.
  intros Hw. apply Z.eqb_neq in Hw.
  unfold Matches. cbn [ValueOf matchesValues]. cbv zeta.
  rewrite !slices_as_multisets. simpl.
  rewrite !Z.eqb_refl. simpl. rewrite Hw, !Z.eqb_refl. simpl.
  rewrite ?Hw, ?Z.eqb_refl. split; reflexivity.
Qed.

Lemma first_fit_depends_on_order_witness :
  Matches (Some (GSlice (TMap TString TInt)
                   [int_map [("a", 1)]; int_map [("a", 1); ("b", 2)]]%Z))
          (Some (GSlice (TMap TString TInt)
                   [int_map [("a", 1); ("b", 2)]; int_map [("a", 1); ("b", 3)]]%Z))
    = Ok false.
Proof.
  apply (first_fit_depends_on_order 1 2 3). discriminate.
Defined.

(** ** Flat JSON bodies *)

(** X16. When both bodies decode to JSON arrays of strings, the responses
    being otherwise alike and read without error, they match exactly when
    one array is a permutation of the other. *)
Theorem json_string_arrays_match_iff_permutation
    (Unmarshal : string → option iface) (expected actual : Response)
    (xs ys : list string) :
  StatusCode expected = StatusCode actual →
  Matches (Some (header_val (Header expected))) (Some (header_val (Header actual)))
    = Ok true →
  ending (Body expected) = None → ending (Body actual) = None →
  Matches (Some (header_val (Trailer expected))) (Some (header_val (Trailer actual)))
    = Ok true →
  Unmarshal (remaining (Body expected)) = Some (Some (json_array (map GString xs))) →
  Unmarshal (remaining (Body actual)) = Some (Some (json_array (map GString ys))) →
  (fst (MatchesHTTPResponse Unmarshal expected actual) = Ok true ↔ Permutation xs ys).
Proof.
  intros Hstatus Hheader Hee Hea Htrailer Hexp Hact.
  unfold MatchesHTTPResponse, matchesRead.
  rewrite Hstatus, Z.eqb_refl, Hheader. simpl.
  rewrite Hee, Hea. simpl. rewrite Htrailer. simpl. rewrite Hexp, Hact.
  assert (Heq : Matches (Some (json_array (map GString xs)))
                        (Some (json_array (map GString ys)))
                = Ok (Nat.eqb (length xs) (length ys) && contained String.eqb xs ys)).
  { unfold Matches, json_array. simpl. rewrite !length_map.
    destruct (Nat.eqb (length xs) (length ys)) eqn:Hn; simpl; [| reflexivity].
    apply Nat.eqb_eq in Hn. rewrite !map_map.
    rewrite <- (length_map (fun s => GIface (Some (GString s))) ys).
    to_multiset_match.
    apply (multiset_match_scalar (fun s => GIface (Some (GString s))) String.eqb).
    intros x y. simpl. reflexivity. }
  rewrite Heq.
  destruct (Nat.eqb (length xs) (length ys)) eqn:Hn; simpl.
  - apply Nat.eqb_eq in Hn.
    rewrite <- (contained_Permutation String.eqb String.eqb_eq xs ys Hn).
    split; congruence.
  - apply Nat.eqb_neq in Hn. split; [discriminate |].
    intros H. apply Permutation_length in H. contradiction.
Qed.

Lemma json_string_arrays_match_iff_permutation_witness :
  fst (MatchesHTTPResponse (sample_Unmarshal_in string_array_documents)
         (response 200 text_xy None) (response 200 text_yx None)) = Ok true.
Proof.
  apply (json_string_arrays_match_iff_permutation
           (sample_Unmarshal_in string_array_documents)
           (response 200 text_xy None) (response 200 text_yx None)
           ["x"; "y"] ["y"; "x"]); try reflexivity.
  apply perm_swap.
Defined.

(** ** Unexported fields below the top *)

Lemma same_visible_type v : ∀ w, same_visible v w → typeOf v = typeOf w.
Proof.
  induction v as [b | z | f | s | s c | t | | t a x IH | t vs IH | t vs IH
                 | n fs IH | k t kvs IH | x IH] using gval_nested_ind;
    intros w Hw; inversion Hw; subst; try reflexivity.
  - simpl. f_equal. eapply Forall2_length; eassumption.
  - simpl. f_equal. clear Hw IH.
    match goal with
    | H : Forall2 _ fs _ |- _ =>
        induction H as [| [f x] [g y] fs gs (Hf & Ht & _) _ IHfs]
    end; [reflexivity |].
    simpl in *. rewrite Hf, Ht, IHfs. reflexivity.
Qed.

Lemma same_visible_elements xs : Forall2 same_visible xs xs.
Proof. induction xs; constructor; [apply visible_same | assumption]. Qed.

Lemma same_visible_seq_inv t xs w :
  same_visible (GArray t xs) w ∨ same_visible (GSlice t xs) w →
  ∃ ys, Forall2 same_visible xs ys
        ∧ (same_visible (GArray t xs) w → w = GArray t ys)
        ∧ (same_visible (GSlice t xs) w → w = GSlice t ys).
Proof.
  intros [H | H]; inversion H; subst.
  - exists xs. split; [apply same_visible_elements |]. split; [reflexivity |].
    intros H'. inversion H'.
  - exists ys. split; [assumption |]. split; [reflexivity |]. intros H'. inversion H'.
  - exists xs. split; [apply same_visible_elements |]. split; [| reflexivity].
    intros H'. inversion H'.
  - exists ys. split; [assumption |]. split; [| reflexivity]. intros H'. inversion H'.
Qed.

Lemma same_visible_struct_inv n fs w :
  same_visible (GStruct n fs) w →
  ∃ gs, w = GStruct n gs
        ∧ Forall2 (fun p q => fst p = fst q ∧ typeOf (snd p) = typeOf (snd q)
                              ∧ (exported (fst p) = true → same_visible (snd p) (snd q)))
                  fs gs.
Proof.
  intros H; inversion H; subst.
  - exists fs. split; [reflexivity |]. clear H.
    induction fs as [| p fs IH]; [constructor |].
    constructor; [| exact IH].
    split; [reflexivity |]. split; [reflexivity |]. intros _. apply visible_same.
  - exists gs. split; [reflexivity | assumption].
Qed.

Lemma same_visible_map_inv k t kvs w :
  same_visible (GMap k t kvs) w →
  ∃ kvs', w = GMap k t kvs'
          ∧ Forall2 (fun p q => fst p = fst q ∧ same_visible (snd p) (snd q)) kvs kvs'.
Proof.
  intros H; inversion H; subst.
  - exists kvs. split; [reflexivity |]. clear H.
    induction kvs as [| p kvs IH]; [constructor |].
    constructor; [| exact IH].
    split; [reflexivity | apply visible_same].
  - exists kvs'. split; [reflexivity | assumption].
Qed.

Lemma same_visible_ptr_inv t (target : option (nat * gval)) w :
  same_visible (GPtr t target) w →
  match target with
  | None => w = GPtr t None
  | Some (_, x) => ∃ b y, w = GPtr t (Some (b, y)) ∧ same_visible x y
  end.
Proof.
  intros H; inversion H; subst.
  - destruct target as [[a x] |]; [| reflexivity].
    exists a, x. split; [reflexivity | apply visible_same].
  - eexists _, _. split; [reflexivity | assumption].
Qed.

Lemma arrays_as_multisets t es items :
  matchesValid (GArray t es) (Val (GArray t items))
  = if negb (Nat.eqb (length es) (length items)) then Ok false
    else multiset_match (fun e a => matchesValid e (Val a)) es items.
Proof.
  simpl. rewrite type_eqb_refl, andb_true_r.
  destruct (Nat.eqb (length es) (length items)); simpl; [| reflexivity].
  to_multiset_match. reflexivity.
Qed.

Section Congruence.

Variable m : gval → gval → result bool.
Variable S : gval → gval → Prop.

Lemma consume_first_cong x x' ys ys' :
  (∀ y y', S y y' → m x y = m x' y') → Forall2 S ys ys' →
  match consume_first m x ys, consume_first m x' ys' with
  | Ok (Some r), Ok (Some r') => Forall2 S r r'
  | Ok None, Ok None => True
  | Panic p, Panic p' => p = p'
  | _, _ => False
  end.
Proof.
  intros Hm Hys. induction Hys as [| y y' ys ys' Hy Hys IH]; simpl; [exact I |].
  rewrite <- (Hm y y' Hy). destruct (m x y) as [[|] |]; simpl; [exact Hys | | reflexivity].
  destruct (consume_first m x ys) as [[r |] |], (consume_first m x' ys') as [[r' |] |];
    simpl; try exact IH. constructor; assumption.
Qed.

Lemma multiset_match_cong xs xs' :
  Forall2 (fun x x' => ∀ y y', S y y' → m x y = m x' y') xs xs' →
  ∀ ys ys', Forall2 S ys ys' → multiset_match m xs ys = multiset_match m xs' ys'.
Proof.
  induction 1 as [| x x' xs xs' Hx _ IH]; intros ys ys' Hys; simpl; [reflexivity |].
  pose proof (consume_first_cong x x' ys ys' Hx Hys) as Hfirst.
  destruct (consume_first m x ys) as [[r |] |], (consume_first m x' ys') as [[r' |] |];
    simpl; try contradiction; try reflexivity.
  - apply IH, Hfirst.
  - congruence.
Qed.

End Congruence.

Lemma lookup_key_same_visible key kvs kvs' :
  Forall2 (fun p q => fst p = fst q ∧ same_visible (snd p) (snd q)) kvs kvs' →
  match lookup_key key kvs, lookup_key key kvs' with
  | Some y, Some y' => same_visible y y'
  | None, None => True
  | _, _ => False
  end.
Proof.
  induction 1 as [| [k y] [k' y'] kvs kvs' [Hk Hy] _ IH]; simpl; [exact I |].
  simpl in Hk, Hy. subst k'. destruct (key_eqb key k); [exact Hy | exact IH].
Qed.

Lemma each_key_same_visible k t k' t' actual actual' kvs kvs' :
  Forall2 (fun p q => fst p = fst q ∧ same_visible (snd p) (snd q)) actual actual' →
  Forall2 (fun p q => fst p = fst q
                      ∧ ∀ y y', same_visible y y' →
                                matchesValid (snd p) (Val y) = matchesValid (snd q) (Val y'))
          kvs kvs' →
  each_key matchesValid (Val (GMap k t actual)) kvs
  = each_key matchesValid (Val (GMap k' t' actual')) kvs'.
Proof.
  intros Hactual. induction 1 as [| [key x] [key' x'] kvs kvs' [Hk Hx] _ IH]; [reflexivity |].
  simpl in Hk, Hx. subst key'. simpl.
  pose proof (lookup_key_same_visible key _ _ Hactual) as Hlook.
  destruct (lookup_key key actual) as [y |], (lookup_key key actual') as [y' |];
    try contradiction; simpl.
  - rewrite (Hx y y' Hlook). destruct (matchesValid x' (Val y')) as [[|] |]; simpl;
      [exact IH | reflexivity | reflexivity].
  - rewrite !matchesValid_invalid. reflexivity.
Qed.

Lemma each_field_same_visible n n' actual actual' :
  Forall2 (fun p q => fst p = fst q ∧ typeOf (snd p) = typeOf (snd q)
                      ∧ (exported (fst p) = true → same_visible (snd p) (snd q)))
          actual actual' →
  ∀ fs fs' i,
    Forall2 (fun p q => fst p = fst q
                        ∧ (exported (fst p) = true →
                           ∀ y y', same_visible y y' →
                                   matchesValid (snd p) (Val y) = matchesValid (snd q) (Val y')))
            fs fs' →
    map fst fs = map fst (drop i actual) →
    each_field matchesValid (Val (GStruct n actual)) fs i
    = each_field matchesValid (Val (GStruct n' actual')) fs' i.
Proof.
  intros Hactual fs fs' i Hfs. revert i.
  induction Hfs as [| [f x] [f' x'] fs fs' [Hf Hx] _ IH]; intros i Hi; [reflexivity |].
  simpl in Hf, Hx. subst f'. simpl.
  destruct (drop i actual) as [| [g y] rest] eqn:Hdrop; [discriminate |].
  simpl in Hi. injection Hi as <- Hrest.
  assert (Hnext : map fst fs = map fst (drop (Datatypes.S i) actual)).
  { rewrite <- (Nat.add_1_r i), <- drop_drop, Hdrop. exact Hrest. }
  fold (exported f). destruct (exported f) eqn:Hexp; simpl; [| apply IH, Hnext].
  assert (Hy : actual !! i = Some (f, y)).
  { rewrite <- (Nat.add_0_r i), <- lookup_drop, Hdrop. reflexivity. }
  destruct (Forall2_lookup_l _ _ _ _ _ Hactual Hy) as ([g' y'] & Hy' & Hg & _ & Hyy).
  simpl in Hg, Hyy. subst g'. rewrite Hy, Hy'. simpl.
  rewrite (Hx eq_refl y y' (Hyy Hexp)).
  destruct (matchesValid x' (Val y')) as [[|] |]; simpl;
    [apply IH, Hnext | reflexivity | reflexivity].
Qed.

Lemma mismatch_on_both_sides e e' a a' :
  typeOf e = typeOf e' → typeOf a = typeOf a' →
  type_eqb (typeOf e) (typeOf a) = false →
  matchesValid e (Val a) = matchesValid e' (Val a').
Proof.
  intros Te Ta Ht.
  assert (Hne : typeOf e ≠ typeOf a).
  { intros Heq. rewrite Heq, type_eqb_refl in Ht. discriminate. }
  rewrite (matchesValid_mismatch e a Hne).
  rewrite Te, Ta in Hne. rewrite (matchesValid_mismatch e' a' Hne). reflexivity.
Qed.

Lemma struct_case n fs a :
  type_eqb (typeOf (GStruct n fs)) (typeOf a) = true →
  matchesValid (GStruct n fs) (Val a) = each_field matchesValid (Val a) fs 0.
Proof.
  intros H. cbn [matchesValid Type_ mbind result_bind]. rewrite H. reflexivity.
Qed.

Lemma map_case k t kvs a :
  type_eqb (typeOf (GMap k t kvs)) (typeOf a) = true →
  matchesValid (GMap k t kvs) (Val a) = each_key matchesValid (Val a) kvs.
Proof.
  intros H. cbn [matchesValid Type_ mbind result_bind]. rewrite H. reflexivity.
Qed.

(** X17. Unexported fields of structs never count where the struct case is
    reached: two comparisons whose expected values, and whose actual
    values, differ only in unexported fields, at any depth below pointers,
    elements of arrays, slices and maps, and exported fields, have the same
    outcome, be it true, false or a panic. *)
Theorem outcome_ignores_unexported_fields (e e' a a' : gval) :
  same_visible e e' → same_visible a a' →
  Matches (Some e) (Some a) = Matches (Some e') (Some a').
Proof.
  intros He Ha. change (matchesValid e (Val a) = matchesValid e' (Val a')).
  revert e' a a' He Ha.
  induction e as [b | z | f | s | s c | t | | t addr x IH | t vs IH | t vs IH
                 | n fs IH | k t kvs IH | x IH] using gval_nested_ind;
    intros e' a a' He Ha;
    pose proof (same_visible_type _ _ He) as Te;
    pose proof (same_visible_type _ _ Ha) as Ta;
    (match goal with
     | |- matchesValid ?e _ = _ => destruct (type_eqb (typeOf e) (typeOf a)) eqn:Ht
     end; [| apply mismatch_on_both_sides; assumption]);
    pose proof (proj1 (type_eqb_eq _ _) Ht) as Heq.
  - inversion He; subst. destruct a; simpl in Heq; try discriminate.
    inversion Ha; subst. reflexivity.
  - inversion He; subst. destruct a; simpl in Heq; try discriminate.
    inversion Ha; subst. reflexivity.
  - inversion He; subst. destruct a; simpl in Heq; try discriminate.
    inversion Ha; subst. reflexivity.
  - inversion He; subst. destruct a; simpl in Heq; try discriminate.
    inversion Ha; subst. reflexivity.
  - inversion He; subst. destruct a; simpl in Heq; try discriminate.
    inversion Ha; subst. reflexivity.
  - (* the nil pointer *)
    inversion He; subst. destruct a; simpl in Heq; try discriminate.
    injection Heq as <-. apply same_visible_ptr_inv in Ha.
    destruct target as [[b y] |].
    + destruct Ha as (b' & y' & -> & _). simpl. rewrite type_eqb_refl. reflexivity.
    + subst a'. reflexivity.
  - (* the nil interface *)
    inversion He; subst. destruct a; simpl in Heq; try discriminate.
    inversion Ha; subst. reflexivity.
  - (* pointers *)
    apply same_visible_ptr_inv in He as (addr' & x' & -> & Hx).
    destruct a; simpl in Heq; try discriminate.
    injection Heq as <-. apply same_visible_ptr_inv in Ha.
    destruct target as [[b y] |].
    + destruct Ha as (b' & y' & -> & Hy). simpl. rewrite type_eqb_refl. simpl.
      apply IH; assumption.
    + subst a'. simpl. rewrite type_eqb_refl. reflexivity.
  - (* arrays *)
    destruct (same_visible_seq_inv t vs e' (or_introl He)) as (xs' & Hxs & He' & _).
    rewrite (He' He). clear He'.
    destruct a; simpl in Heq; try discriminate. injection Heq as _ <-.
    destruct (same_visible_seq_inv t items a' (or_introl Ha)) as (ys' & Hys & Ha' & _).
    rewrite (Ha' Ha). clear Ha'.
    rewrite !arrays_as_multisets.
    rewrite <- (Forall2_length _ _ _ Hxs), <- (Forall2_length _ _ _ Hys).
    destruct (Nat.eqb (length vs) (length items)); simpl; [| reflexivity].
    apply (multiset_match_cong _ same_visible); [| exact Hys].
    clear -IH Hxs. induction Hxs as [| x x' xs xs' Hx _ IHxs]; [constructor |].
    apply Forall_cons in IH as [IHx IH].
    constructor; [| apply IHxs, IH]. intros y y' Hy. apply IHx; assumption.
  - (* slices *)
    destruct (same_visible_seq_inv t vs e' (or_intror He)) as (xs' & Hxs & _ & He').
    rewrite (He' He). clear He'.
    destruct a; simpl in Heq; try discriminate. injection Heq as <-.
    destruct (same_visible_seq_inv t items a' (or_intror Ha)) as (ys' & Hys & _ & Ha').
    rewrite (Ha' Ha). clear Ha'.
    rewrite !slices_as_multisets.
    rewrite <- (Forall2_length _ _ _ Hxs), <- (Forall2_length _ _ _ Hys).
    destruct (Nat.eqb (length vs) (length items)); simpl; [| reflexivity].
    apply (multiset_match_cong _ same_visible); [| exact Hys].
    clear -IH Hxs. induction Hxs as [| x x' xs xs' Hx _ IHxs]; [constructor |].
    apply Forall_cons in IH as [IHx IH].
    constructor; [| apply IHxs, IH]. intros y y' Hy. apply IHx; assumption.
  - (* structs *)
    destruct (same_visible_struct_inv _ _ _ He) as (fs' & -> & Hfs).
    destruct a; simpl in Heq; try discriminate. injection Heq as <- Hfields.
    destruct (same_visible_struct_inv _ _ _ Ha) as (gs' & -> & Hgs).
    rewrite (struct_case _ _ _ Ht).
    rewrite Te, Ta in Ht. rewrite (struct_case _ _ _ Ht).
    apply (each_field_same_visible _ _ _ _ Hgs).
    + clear -IH Hfs. induction Hfs as [| [f x] [f' x'] fs fs' (Hf & _ & Hx) _ IHfs];
        [constructor |].
      apply Forall_cons in IH as [IHx IH]. simpl in *.
      constructor; [| apply IHfs, IH]. split; [exact Hf |].
      intros Hexp y y' Hy. apply IHx; [apply Hx, Hexp | exact Hy].
    + rewrite drop_0. apply (f_equal (map fst)) in Hfields.
      rewrite !map_map in Hfields. exact Hfields.
  - (* maps *)
    destruct (same_visible_map_inv _ _ _ _ He) as (kvs' & -> & Hkvs).
    destruct a; simpl in Heq; try discriminate.
    destruct (same_visible_map_inv _ _ _ _ Ha) as (avs' & -> & Havs).
    rewrite (map_case _ _ _ _ Ht).
    rewrite Te, Ta in Ht. rewrite (map_case _ _ _ _ Ht).
    apply (each_key_same_visible _ _ _ _ _ _ _ _ Havs).
    clear -IH Hkvs. induction Hkvs as [| [key x] [key' x'] kvs kvs' [Hk Hx] _ IHkvs];
      [constructor |].
    apply Forall_cons in IH as [IHx IH]. simpl in *.
    constructor; [| apply IHkvs, IH]. split; [exact Hk |].
    intros y y' Hy. apply IHx; assumption.
  - (* an interface holding a value *)
    inversion He; subst. destruct a; simpl in Heq; try discriminate.
    inversion Ha; subst. reflexivity.
Qed.

Lemma outcome_ignores_unexported_fields_witness :
  same_visible (GStruct "pkg.V" (V_val 1 "x")) (GStruct "pkg.V" (V_val 1 "y"))
  ∧ Matches (Some (GSlice (TStruct "pkg.V" [(field_Inner, typeOf (GStruct "pkg.T" (T_val 1 "x")))])
                     [GStruct "pkg.V" (V_val 1 "x")]))
            (Some (GSlice (TStruct "pkg.V" [(field_Inner, typeOf (GStruct "pkg.T" (T_val 1 "x")))])
                     [GStruct "pkg.V" (V_val 1 "u")]))
    = Matches (Some (GSlice (TStruct "pkg.V" [(field_Inner, typeOf (GStruct "pkg.T" (T_val 1 "x")))])
                       [GStruct "pkg.V" (V_val 1 "y")]))
              (Some (GSlice (TStruct "pkg.V" [(field_Inner, typeOf (GStruct "pkg.T" (T_val 1 "x")))])
                       [GStruct "pkg.V" (V_val 1 "v")])).
Proof.
  assert (Hv : ∀ b b', same_visible (GStruct "pkg.V" (V_val 1 b)) (GStruct "pkg.V" (V_val 1 b'))).
  { intros b b'. apply visible_struct. constructor; [| constructor].
    split; [reflexivity |]. split; [reflexivity |]. intros _.
    apply visible_struct. constructor; [| constructor; [| constructor]].
    - split; [reflexivity |]. split; [reflexivity |]. intros _. apply visible_same.
    - split; [reflexivity |]. split; [reflexivity |]. intros H. discriminate H. }
  split; [apply Hv |].
  apply outcome_ignores_unexported_fields; apply visible_slice;
    (apply List.Forall2_cons; [apply Hv | apply List.Forall2_nil]).
Defined.

(** X18. A struct without exported fields matches every value of its
    type. *)
Theorem struct_without_exported_fields_matches (n : string)
    (expected actual : list (StructField * gval)) :
  typeOf (GStruct n expected) = typeOf (GStruct n actual) → no_exported expected →
  Matches (Some (GStruct n expected)) (Some (GStruct n actual)) = Ok true.
Proof.
  intros Htype Hnone. unfold Matches. cbn [ValueOf matchesValues].
  rewrite struct_case by (rewrite Htype; apply type_eqb_refl).
  apply each_field_no_exported, Hnone.
Qed.

Lemma struct_without_exported_fields_matches_witness :
  no_exported (U_val "x")
  ∧ Matches (Some (GStruct "pkg.U" (U_val "x"))) (Some (GStruct "pkg.U" (U_val "y")))
    = Ok true.
Proof.
  assert (H : no_exported (U_val "x")) by (repeat constructor).
  split; [exact H |].
  apply (struct_without_exported_fields_matches "pkg.U" (U_val "x") (U_val "y") eq_refl H).
Defined.
